(** * fedrev-website: the static-site build script

    A shallow embedding of the build script (CSS bundling, content
    injection, HTML minification, page assembly and link validation) and
    the properties its specification states about it.

    JavaScript strings are sequences of UTF-16 code units; a code unit is
    an [N] and a string a [list N].  The regular expressions of the script
    carry no [u] flag, so they work on code units, which is what the
    matchers below do. *)

From Stdlib Require Import NArith String Ascii.
From stdpp Require Import base list gmap.

Local Open Scope N_scope.

(* ================================================================== *)
(** ** JavaScript strings *)

Module Js.

Abbreviation str := (list N).

(** A string literal of the source, as code units (ASCII literals only). *)
Definition lit (s : string) : str :=
  List.map N_of_ascii (list_ascii_of_string s).
Arguments lit : simpl never.

(** Single characters the script's patterns mention. *)
Definition cLF : N := 10.
Definition cCR : N := 13.
Definition cSP : N := 32.
Definition cDQ : N := 34.      (* double quote *)
Definition cHASH : N := 35.
Definition cDOLLAR : N := 36.
Definition cAMP : N := 38.
Definition cSQ : N := 39.      (* single quote *)
Definition cSTAR : N := 42.
Definition cCOMMA : N := 44.
Definition cSLASH : N := 47.
Definition cCOLON : N := 58.
Definition cSEMI : N := 59.
Definition cLT : N := 60.
Definition cEQ : N := 61.
Definition cGT : N := 62.
Definition cQUERY : N := 63.
Definition cBACKTICK : N := 96.
Definition cLBRACE : N := 123.
Definition cRBRACE : N := 125.

(** LineTerminator of ECMAScript: LF, CR, LS, PS.  [.] matches everything
    else; with the [m] flag [^] and [$] look for one of these. *)
Definition is_line_terminator (c : N) : bool :=
  (c =? 10) || (c =? 13) || (c =? 0x2028) || (c =? 0x2029).

(** The class [\s]: WhiteSpace and LineTerminator of ECMAScript.  It is
    also what [String.prototype.trim] strips. *)
Definition is_space (c : N) : bool :=
  (c =? 9) || (c =? 10) || (c =? 11) || (c =? 12) || (c =? 13) ||
  (c =? 32) || (c =? 0xA0) || (c =? 0x1680) ||
  ((0x2000 <=? c) && (c <=? 0x200A)) ||
  (c =? 0x2028) || (c =? 0x2029) || (c =? 0x202F) || (c =? 0x205F) ||
  (c =? 0x3000) || (c =? 0xFEFF).

Definition is_digit (c : N) : bool := (48 <=? c) && (c <=? 57).

Fixpoint str_eqb (a b : str) : bool :=
  match a, b with
  | [], [] => true
  | x :: a', y :: b' => (x =? y) && str_eqb a' b'
  | _, _ => false
  end.

(** [s.startsWith(p)] *)
Fixpoint startsWith (p s : str) : bool :=
  match p with
  | [] => true
  | x :: p' =>
    match s with
    | [] => false
    | y :: s' => (x =? y) && startsWith p' s'
    end
  end.

(** [s.endsWith(p)] *)
Definition endsWith (p s : str) : bool := startsWith (rev p) (rev s).

(** [s.indexOf(p)]: the first position where [p] occurs, if any. *)
Fixpoint indexOf (p s : str) : option nat :=
  if startsWith p s then Some 0%nat
  else match s with
       | [] => None
       | _ :: s' => S <$> indexOf p s'
       end.

(** [s.split(sep)[0]] for a one-character separator: the text before its
    first occurrence, the whole string when there is none. *)
Fixpoint split_head (sep : N) (s : str) : str :=
  match s with
  | [] => []
  | c :: s' => if c =? sep then [] else c :: split_head sep s'
  end.

(** Longest prefix of characters satisfying [p], and what follows it. *)
Fixpoint span (p : N → bool) (s : str) : str * str :=
  match s with
  | [] => ([], [])
  | c :: s' =>
    if p c then let '(a, b) := span p s' in (c :: a, b) else ([], s)
  end.

Fixpoint trimStart (s : str) : str :=
  match s with
  | [] => []
  | c :: s' => if is_space c then trimStart s' else s
  end.

Definition trimEnd (s : str) : str := rev (trimStart (rev s)).

(** [s.trim()] *)
Definition trim (s : str) : str := trimEnd (trimStart s).

(** *** Replacement templates

    [GetSubstitution] of ECMAScript: what a replacement {e string} stands
    for at a match.  [$$] is a dollar, [$&] the matched text, [$`] the text
    before the match, [$'] the text after it, [$n] and [$nn] a capture when
    the pattern has that many; every other character stands for itself. *)

Definition digit_val (c : N) : nat := N.to_nat (c - 48).

Definition capture (caps : list str) (i : nat) : option str :=
  match i with
  | O => None
  | S j => caps !! j
  end.

Fixpoint GetSubstitution (matched before after : str) (caps : list str)
    (template : str) : str :=
  match template with
  | [] => []
  | c :: t1 =>
    if negb (c =? cDOLLAR) then
      c :: GetSubstitution matched before after caps t1
    else
      match t1 with
      | [] => [c]
      | d :: t2 =>
        if d =? cDOLLAR then
          cDOLLAR :: GetSubstitution matched before after caps t2
        else if d =? cAMP then
          matched ++ GetSubstitution matched before after caps t2
        else if d =? cBACKTICK then
          before ++ GetSubstitution matched before after caps t2
        else if d =? cSQ then
          after ++ GetSubstitution matched before after caps t2
        else if is_digit d then
          let one :=
            match capture caps (digit_val d) with
            | Some cap => cap ++ GetSubstitution matched before after caps t2
            | None => c :: d :: GetSubstitution matched before after caps t2
            end in
          match t2 with
          | d2 :: t3 =>
            if is_digit d2 then
              let idx := (10 * digit_val d + digit_val d2)%nat in
              if (idx <=? length caps)%nat then
                match capture caps idx with
                | Some cap =>
                  cap ++ GetSubstitution matched before after caps t3
                | None =>
                  c :: d :: d2 ::
                    GetSubstitution matched before after caps t3
                end
              else one
            else one
          | [] => one
          end
        else
          c :: GetSubstitution matched before after caps t1
      end
  end.

(** [s.replace(pattern, replacement)] with a {e string} pattern: only the
    first occurrence is replaced, and the replacement is a template. *)
Definition replace (pattern replacement s : str) : str :=
  match indexOf pattern s with
  | None => s
  | Some i =>
    let before := take i s in
    let after := drop (i + length pattern) s in
    before ++ GetSubstitution pattern before after [] replacement ++ after
  end.

(** *** Global regular-expression replacement

    A matcher answers, for the text already passed (latest character
    first) and the text ahead, whether the pattern matches at this very
    position: the length of the match and its captures.  Every pattern of
    the script consumes at least one character when it matches. *)

Definition matcher := str → str → option (nat * list str).

(** [s.replace(/re/g, template)]: matches are looked for from left to
    right; after a match the search resumes behind it.  [skip] counts the
    characters of the current match that are still to be passed over. *)
Fixpoint replace_g_from (m : matcher) (template : str) (skip : nat)
    (passed s : str) : str :=
  match s with
  | [] => []
  | c :: s' =>
    match skip with
    | S k => replace_g_from m template k (c :: passed) s'
    | O =>
      match m passed s with
      | Some (n, caps) =>
        GetSubstitution (take n s) (rev passed) (drop n s) caps template
          ++ replace_g_from m template (pred n) (c :: passed) s'
      | None => c :: replace_g_from m template 0 (c :: passed) s'
      end
    end
  end.

Definition replace_g (m : matcher) (template s : str) : str :=
  replace_g_from m template 0 [] s.

(** The matches themselves, for a replacement computed by a callback
    ([s.replace(/re/g, fn)]) or a loop over [re.exec(s)]: each match with
    the unmatched text in front of it, and the text after the last one. *)
Fixpoint scan_g_from (m : matcher) (skip : nat) (passed s : str)
    : list (str * list str) * str :=
  match s with
  | [] => ([], [])
  | c :: s' =>
    match skip with
    | S k => scan_g_from m k (c :: passed) s'
    | O =>
      match m passed s with
      | Some (n, caps) =>
        let '(ps, tl) := scan_g_from m (pred n) (c :: passed) s' in
        (([], caps) :: ps, tl)
      | None =>
        let '(ps, tl) := scan_g_from m 0 (c :: passed) s' in
        match ps with
        | [] => ([], c :: tl)
        | (t, caps) :: ps' => ((c :: t, caps) :: ps', tl)
        end
      end
    end
  end.

Definition scan_g (m : matcher) (s : str) : list (str * list str) * str :=
  scan_g_from m 0 [] s.

(** A pattern that is a plain literal. *)
Definition m_literal (p : str) : matcher :=
  fun _ s => if startsWith p s then Some (length p, []) else None.

End Js.

Import Js.

(* ================================================================== *)
(** ** Node's [path] module (POSIX flavour) and [fs] *)

Module Path.

(** The segments between slashes. *)
Fixpoint split_slash (s : str) : list str :=
  match s with
  | [] => [[]]
  | c :: s' =>
    if c =? cSLASH then [] :: split_slash s'
    else match split_slash s' with
         | seg :: segs => (c :: seg) :: segs
         | [] => [[c]]
         end
  end.

Definition join_slash (segs : list str) : str :=
  match segs with
  | [] => []
  | seg :: segs' => seg ++ concat (List.map (fun x => cSLASH :: x) segs')
  end.

Definition dot : str := lit ".".
Definition dotdot : str := lit "..".

(** [normalizeString]: empty and [.] segments vanish, [..] removes the
    segment before it; above the root it is dropped, in a relative path
    it stays.  [acc] holds the kept segments, latest first. *)
Fixpoint normalize_segments (allowAboveRoot : bool) (acc segs : list str)
    : list str :=
  match segs with
  | [] => rev acc
  | seg :: rest =>
    if str_eqb seg [] || str_eqb seg dot then
      normalize_segments allowAboveRoot acc rest
    else if str_eqb seg dotdot then
      match acc with
      | top :: acc' =>
        if str_eqb top dotdot
        then normalize_segments allowAboveRoot (seg :: acc) rest
        else normalize_segments allowAboveRoot acc' rest
      | [] =>
        if allowAboveRoot
        then normalize_segments allowAboveRoot [seg] rest
        else normalize_segments allowAboveRoot [] rest
      end
    else normalize_segments allowAboveRoot (seg :: acc) rest
  end.

Definition isAbsolute (p : str) : bool := startsWith [cSLASH] p.

(** [path.normalize(p)] *)
Definition normalize (p : str) : str :=
  match p with
  | [] => dot
  | _ =>
    let abs := isAbsolute p in
    let trailing := endsWith [cSLASH] p in
    let body := join_slash (normalize_segments (negb abs) [] (split_slash p)) in
    match body with
    | [] => if abs then [cSLASH] else if trailing then lit "./" else dot
    | _ =>
      let body := if trailing then body ++ [cSLASH] else body in
      if abs then cSLASH :: body else body
    end
  end.

(** [path.join(a, b)] *)
Definition join (a b : str) : str :=
  match a, b with
  | [], [] => dot
  | [], _ => normalize b
  | _, [] => normalize a
  | _, _ => normalize (a ++ cSLASH :: b)
  end.

(** [path.resolve(dir, p)] for an absolute [dir] (every directory the
    script resolves against lies below [__dirname]; the process's working
    directory, which Node falls back on otherwise, is taken to be the
    root). *)
Definition resolve (dir p : str) : str :=
  let whole := if isAbsolute p then p
               else match p with [] => dir | _ => dir ++ cSLASH :: p end in
  cSLASH :: join_slash (normalize_segments false [] (split_slash whole)).

Fixpoint drop_slashes (s : str) : str :=
  match s with
  | [] => []
  | c :: s' => if c =? cSLASH then drop_slashes s' else s
  end.

Fixpoint drop_segment (s : str) : str :=
  match s with
  | [] => []
  | c :: s' => if c =? cSLASH then s else drop_segment s'
  end.

(** [path.dirname(p)] *)
Definition dirname (p : str) : str :=
  match p with
  | [] => dot
  | _ =>
    let abs := isAbsolute p in
    (* from the end: trailing slashes, the last segment, one slash *)
    match drop_segment (drop_slashes (rev p)) with
    | [] => if abs then [cSLASH] else dot
    | _ :: r =>
      match r with
      | [] => [cSLASH]
      | [_] => if abs then lit "//" else rev r
      | _ => rev r
      end
    end
  end.

(** The last segment, trailing slashes apart. *)
Definition basename (p : str) : str :=
  rev (fst (span (fun c => negb (c =? cSLASH)) (drop_slashes (rev p)))).

Fixpoint last_dot (s : str) : option nat :=
  match s with
  | [] => None
  | c :: s' =>
    match last_dot s' with
    | Some i => Some (S i)
    | None => if c =? 46 then Some 0%nat else None
    end
  end.

(** [path.extname(p)]: from the last dot of the last segment on; none when
    that dot opens the segment, or the segment is [..]. *)
Definition extname (p : str) : str :=
  let b := basename p in
  if str_eqb b dotdot then []
  else match last_dot b with
       | None | Some O => []
       | Some i => drop i b
       end.

End Path.

Module Fs.

(** What a path of the disk holds. *)
Inductive entry :=
| File (content : str)
| Dir.

(** A disk: what each (absolute, normalized) path holds. *)
Abbreviation disk := (gmap str entry).

(** [fs.existsSync(p)]: true for files and for directories. *)
Definition existsSync (d : disk) (p : str) : bool :=
  bool_decide (is_Some (d !! p)).

(** [fs.readFileSync(p, "utf8")]: the content of a file; it throws when
    nothing is there (ENOENT) and on a directory (EISDIR). *)
Definition readFileSync (d : disk) (p : str) : option str :=
  match d !! p with
  | Some (File content) => Some content
  | _ => None
  end.

(** [fs.readdirSync(dir)]: the names directly below [dir], in the order
    the disk lists them. *)
Definition readdirSync (d : disk) (dir : str) : list str :=
  omap (fun '(p, _) =>
          if str_eqb (Path.dirname p) dir && negb (str_eqb p dir)
          then Some (Path.basename p) else None)
       (map_to_list d).

End Fs.

(* ================================================================== *)
(** ** Node's [crypto]: the MD5 digest *)

Module Md5.

(** [Buffer.from(s, "utf8")]: the bytes hashed for a string; a surrogate
    without its partner is encoded as U+FFFD. *)
Definition is_high_surrogate (c : N) : bool := (0xD800 <=? c) && (c <=? 0xDBFF).
Definition is_low_surrogate (c : N) : bool := (0xDC00 <=? c) && (c <=? 0xDFFF).

Definition utf8_of_code_point (cp : N) : list N :=
  if cp <? 0x80 then [cp]
  else if cp <? 0x800 then
    [N.lor 0xC0 (N.shiftr cp 6); N.lor 0x80 (N.land cp 0x3F)]
  else if cp <? 0x10000 then
    [N.lor 0xE0 (N.shiftr cp 12); N.lor 0x80 (N.land (N.shiftr cp 6) 0x3F);
     N.lor 0x80 (N.land cp 0x3F)]
  else
    [N.lor 0xF0 (N.shiftr cp 18); N.lor 0x80 (N.land (N.shiftr cp 12) 0x3F);
     N.lor 0x80 (N.land (N.shiftr cp 6) 0x3F); N.lor 0x80 (N.land cp 0x3F)].

Fixpoint utf8 (s : str) : list N :=
  match s with
  | [] => []
  | c :: s' =>
    if is_high_surrogate c then
      match s' with
      | c2 :: s'' =>
        if is_low_surrogate c2 then
          utf8_of_code_point
            (0x10000 + N.shiftl (c - 0xD800) 10 + (c2 - 0xDC00)) ++ utf8 s''
        else utf8_of_code_point 0xFFFD ++ utf8 s'
      | [] => utf8_of_code_point 0xFFFD
      end
    else if is_low_surrogate c then utf8_of_code_point 0xFFFD ++ utf8 s'
    else utf8_of_code_point c ++ utf8 s'
  end.

Definition w32 (x : N) : N := N.land x 0xFFFFFFFF.
Definition add32 (x y : N) : N := w32 (x + y).
Definition not32 (x : N) : N := N.lxor (w32 x) 0xFFFFFFFF.
Definition rotl32 (x c : N) : N :=
  w32 (N.lor (N.shiftl x c) (N.shiftr (w32 x) (32 - c))).

Definition K : list N := [
  0xd76aa478; 0xe8c7b756; 0x242070db; 0xc1bdceee;
  0xf57c0faf; 0x4787c62a; 0xa8304613; 0xfd469501;
  0x698098d8; 0x8b44f7af; 0xffff5bb1; 0x895cd7be;
  0x6b901122; 0xfd987193; 0xa679438e; 0x49b40821;
  0xf61e2562; 0xc040b340; 0x265e5a51; 0xe9b6c7aa;
  0xd62f105d; 0x02441453; 0xd8a1e681; 0xe7d3fbc8;
  0x21e1cde6; 0xc33707d6; 0xf4d50d87; 0x455a14ed;
  0xa9e3e905; 0xfcefa3f8; 0x676f02d9; 0x8d2a4c8a;
  0xfffa3942; 0x8771f681; 0x6d9d6122; 0xfde5380c;
  0xa4beea44; 0x4bdecfa9; 0xf6bb4b60; 0xbebfbc70;
  0x289b7ec6; 0xeaa127fa; 0xd4ef3085; 0x04881d05;
  0xd9d4d039; 0xe6db99e5; 0x1fa27cf8; 0xc4ac5665;
  0xf4292244; 0x432aff97; 0xab9423a7; 0xfc93a039;
  0x655b59c3; 0x8f0ccc92; 0xffeff47d; 0x85845dd1;
  0x6fa87e4f; 0xfe2ce6e0; 0xa3014314; 0x4e0811a1;
  0xf7537e82; 0xbd3af235; 0x2ad7d2bb; 0xeb86d391].

Definition S : list N := [
  7; 12; 17; 22; 7; 12; 17; 22; 7; 12; 17; 22; 7; 12; 17; 22;
  5; 9; 14; 20; 5; 9; 14; 20; 5; 9; 14; 20; 5; 9; 14; 20;
  4; 11; 16; 23; 4; 11; 16; 23; 4; 11; 16; 23; 4; 11; 16; 23;
  6; 10; 15; 21; 6; 10; 15; 21; 6; 10; 15; 21; 6; 10; 15; 21].

(** Little-endian words of a block of bytes. *)
Fixpoint words (bytes : list N) : list N :=
  match bytes with
  | b0 :: b1 :: b2 :: b3 :: rest =>
    (b0 + N.shiftl b1 8 + N.shiftl b2 16 + N.shiftl b3 24) :: words rest
  | _ => []
  end.

Definition le_bytes (n : nat) (x : N) : list N :=
  List.map (fun i => N.land (N.shiftr x (8 * N.of_nat i)) 0xFF) (seq 0 n).

(** The message with its padding: a one bit, zeros up to 56 modulo 64,
    and the length in bits on 64 bits. *)
Definition pad (bytes : list N) : list N :=
  let len := length bytes in
  let zeros := ((64 + 55 - len mod 64) mod 64)%nat in
  bytes ++ [0x80] ++ List.repeat 0 zeros
        ++ le_bytes 8 (8 * N.of_nat len).

Definition state := (N * N * N * N)%type.

Definition step (M : list N) (st : state) (i : nat) : state :=
  let '(A, B, C, D) := st in
  let '(F, g) :=
    if (i <? 16)%nat then
      (N.lor (N.land B C) (N.land (not32 B) D), i)
    else if (i <? 32)%nat then
      (N.lor (N.land D B) (N.land (not32 D) C), ((5 * i + 1) mod 16)%nat)
    else if (i <? 48)%nat then
      (N.lxor (N.lxor B C) D, ((3 * i + 5) mod 16)%nat)
    else
      (N.lxor C (N.lor B (not32 D)), ((7 * i) mod 16)%nat) in
  let F := add32 (add32 (add32 F A) (default 0 (K !! i))) (default 0 (M !! g)) in
  (D, add32 B (rotl32 F (default 0 (S !! i))), B, C).

Definition block (st : state) (M : list N) : state :=
  let '(A0, B0, C0, D0) := st in
  let '(A, B, C, D) := fold_left (step M) (seq 0 64) st in
  (add32 A0 A, add32 B0 B, add32 C0 C, add32 D0 D).

Fixpoint blocks (n : nat) (ws : list N) (st : state) : state :=
  match n with
  | O => st
  | Datatypes.S n' => blocks n' (drop 16 ws) (block st (take 16 ws))
  end.

Definition digest (bytes : list N) : list N :=
  let ws := words (pad bytes) in
  let '(A, B, C, D) :=
    blocks (length ws / 16) ws
      (0x67452301, 0xefcdab89, 0x98badcfe, 0x10325476) in
  le_bytes 4 A ++ le_bytes 4 B ++ le_bytes 4 C ++ le_bytes 4 D.

Definition hex_digit (x : N) : N := if x <? 10 then 48 + x else 87 + x.

Definition hex (bytes : list N) : str :=
  concat (List.map (fun b => [hex_digit (N.shiftr b 4);
                              hex_digit (N.land b 0xF)]) bytes).

(** [crypto.createHash("md5").update(content).digest("hex")] *)
Definition md5_hex (content : str) : str := hex (digest (utf8 content)).

End Md5.

(** What a call comes to: a value, an exception that nothing catches
    (the path named in it), or a model that ran out of fuel. *)
Inductive outcome (A : Type) :=
| Done (a : A)
| Throws (path : str)
| OutOfFuel.
Arguments Done {A} a.
Arguments Throws {A} path.
Arguments OutOfFuel {A}.

(** The lines the script writes to the console that the properties below
    speak of. *)
Inductive event :=
| WarnMissingImport (resolvedPath : str)   (* Missing imported CSS: ... *)
| LogCssBundled (outputFileName : str)     (* CSS bundled and minified with hash: ... *)
| WarnBrokenLink (file link : str)         (* Broken link in ...: ... does not exist. *)
| LogLinksValid.                           (* All internal links validated successfully. *)

(* ================================================================== *)
(** ** The patterns of the script *)

Module Pattern.

(** [open], then as little as possible of anything, then [close]:
    [/\/\*[\s\S]*?\*\//] and [/<!--[\s\S]*?-->/]. *)
Definition m_delimited (open close : str) : matcher :=
  fun _ s =>
    if startsWith open s then
      match indexOf close (drop (length open) s) with
      | Some j => Some ((length open + j + length close)%nat, [])
      | None => None
      end
    else None.

(** A run of at least [least] white-space characters, as long as it
    gets: [/\s+/] and [/\s{2,}/]. *)
Definition m_spaces (least : nat) : matcher :=
  fun _ s =>
    let n := length (fst (span is_space s)) in
    if (least <=? n)%nat then Some (n, []) else None.

Definition is_css_symbol (c : N) : bool :=
  (c =? cLBRACE) || (c =? cRBRACE) || (c =? cCOLON) || (c =? cSEMI) ||
  (c =? cCOMMA).

(** [/\s*([{}:;,])\s*/]: one of the symbols with the white space on both
    sides of it; the symbol is capture 1. *)
Definition m_css_symbol : matcher :=
  fun _ s =>
    let '(front, r) := span is_space s in
    match r with
    | c :: r' =>
      if is_css_symbol c
      then Some ((length front + 1 + length (fst (span is_space r')))%nat,
                 [[c]])
      else None
    | [] => None
    end.

Definition is_quote (c : N) : bool := (c =? cDQ) || (c =? cSQ).

(** The lazy [(.+?)] of the import pattern: the shortest non-empty run of
    characters other than line terminators that a quote (single or double)
    and a semicolon follow; its length. *)
Fixpoint lazy_path (s : str) : option nat :=
  match s with
  | [] => None
  | c :: s' =>
    if is_line_terminator c then None
    else
      match s' with
      | q :: semi :: _ =>
        if is_quote q && (semi =? cSEMI) then Some 1%nat
        else S <$> lazy_path s'
      | _ => S <$> lazy_path s'
      end
  end.

(** The import pattern: [@import], white space, a quote (single or
    double), [(.+?)], a quote, a semicolon; the path is capture 1. *)
Definition m_import : matcher :=
  fun _ s =>
    let kw := lit "@import" in
    if startsWith kw s then
      let '(ws, r) := span is_space (drop (length kw) s) in
      match ws, r with
      | _ :: _, q :: r' =>
        if is_quote q then
          match lazy_path r' with
          | Some k =>
            Some ((length kw + length ws + 1 + k + 2)%nat, [take k r'])
          | None => None
          end
        else None
      | _, _ => None
      end
    else None.

End Pattern.

Import Pattern.

(* ================================================================== *)
(** ** CSS bundling and minification *)

(** [minifyCSS(css)] *)
Definition minifyCSS (css : str) : str :=
  trim
    (replace_g (m_literal (lit ";}")) (lit "}")        (* trailing semicolons *)
      (replace_g m_css_symbol (lit "$1")               (* spaces around symbols *)
        (replace_g (m_spaces 1) (lit " ")              (* collapse white space *)
          (replace_g (m_delimited (lit "/*") (lit "*/")) []   (* comments *)
             css)))).

(** What the bundler changes as it runs: the [seen] set, a JavaScript
    [Set], which keeps its members in the order they were added, and the
    console. *)
Record bundler := {
  seen : list str;
  console : list event;
}.

Definition seen_add (p : str) (b : bundler) : bundler :=
  {| seen := if bool_decide (p ∈ seen b) then seen b else seen b ++ [p];
     console := console b |}.

Definition warn (e : event) (b : bundler) : bundler :=
  {| seen := seen b; console := console b ++ [e] |}.

(** [content.replace(re, callback)] once the matches are known: the
    callback is called for each match in turn, from left to right, and its
    answer stands where the match stood. *)
Fixpoint replace_each {S : Type}
    (callback : list str → S → outcome (str * S))
    (matches : list (str * list str)) (σ : S) : outcome (str * S) :=
  match matches with
  | [] => Done ([], σ)
  | (text, caps) :: rest =>
    match callback caps σ with
    | Done (r, σ1) =>
      match replace_each callback rest σ1 with
      | Done (out, σ2) => Done (text ++ r ++ out, σ2)
      | failed => failed
      end
    | failed => failed
    end
  end.

(** The callback of [inlineCSS] for one [@import] statement of the file
    [filePath]; [recur] is [inlineCSS] itself. *)
Definition inline_import (recur : str → bundler → outcome (str * bundler))
    (d : Fs.disk) (filePath : str) (caps : list str) (σ : bundler)
    : outcome (str * bundler) :=
  let importPath := default [] (caps !! 0%nat) in
  let resolvedPath := Path.resolve (Path.dirname filePath) importPath in
  if negb (Fs.existsSync d resolvedPath)
  then Done ([], warn (WarnMissingImport resolvedPath) σ)
  else recur resolvedPath σ.

(** [inlineCSS(filePath, seen)].  The recursion of the script ends because
    every call that reads a file has added a new path to [seen]; here it
    is bounded by [fuel]. *)
Fixpoint inlineCSS (fuel : nat) (d : Fs.disk) (filePath : str) (σ : bundler)
    : outcome (str * bundler) :=
  match fuel with
  | O => OutOfFuel
  | S fuel' =>
    if bool_decide (filePath ∈ seen σ) then Done ([], σ)
    else
      let σ1 := seen_add filePath σ in
      match Fs.readFileSync d filePath with
      | None => Throws filePath
      | Some content =>
        let '(matches, rest) := scan_g m_import content in
        match
          replace_each (inline_import (inlineCSS fuel' d) d filePath)
            matches σ1
        with
        | Done (out, σ2) => Done (out ++ rest, σ2)
        | failed => failed
        end
      end
  end.

(** Fuel that is always enough: one call per file of the disk, and one. *)
Definition inline_fuel (d : Fs.disk) : nat := S (size d).

Definition new_bundler : bundler := {| seen := []; console := [] |}.

(** [getContentHash(content)] *)
Definition getContentHash (content : str) : str :=
  take 8 (Md5.md5_hex content).

Definition bundle_name (hash : str) : str :=
  lit "bundle." ++ hash ++ lit ".css".

Section Script.

(** The directory of the script. *)
Variable __dirname : str.

Definition SRC_DIR : str := Path.join __dirname (lit "src").
Definition PUBLIC_DIR : str := Path.join __dirname (lit "public").
Definition ASSETS_DIR : str := Path.join SRC_DIR (lit "assets").
Definition PARTIALS_DIR : str := Path.join SRC_DIR (lit "partials").

(** [fs.mkdirSync(dir, { recursive: true })]: the directory and those
    above it, where nothing is there yet. *)
Fixpoint mkdir_from (d : Fs.disk) (above : str) (segs : list str) : Fs.disk :=
  match segs with
  | [] => d
  | seg :: segs' =>
    let here := above ++ cSLASH :: seg in
    let d' := match d !! here with
              | None => <[here := Fs.Dir]> d
              | Some _ => d
              end in
    mkdir_from d' here segs'
  end.

Definition mkdirSync (d : Fs.disk) (dir : str) : Fs.disk :=
  mkdir_from d []
    (Path.normalize_segments false [] (Path.split_slash dir)).

(** [fs.writeFileSync(p, content)]; writing onto a directory throws. *)
Definition writeFileSync (d : Fs.disk) (p content : str) : outcome Fs.disk :=
  match d !! p with
  | Some Fs.Dir => Throws p
  | _ => Done (<[p := Fs.File content]> d)
  end.

(** [compileCSSBundleWithHash(inputCssFile)]: the name of the bundle, the
    disk with the bundle written, and the console. *)
Definition compileCSSBundleWithHash (d : Fs.disk) (inputCssFile : str)
    : outcome (str * Fs.disk * list event) :=
  let inputPath := Path.join (Path.join ASSETS_DIR (lit "css")) inputCssFile in
  match inlineCSS (inline_fuel d) d inputPath new_bundler with
  | Done (bundledCss, σ) =>
    let minifiedCss := minifyCSS bundledCss in
    let hash := getContentHash minifiedCss in
    let outputFileName := bundle_name hash in
    let outputPath :=
      Path.join (Path.join PUBLIC_DIR (lit "css")) outputFileName in
    match writeFileSync (mkdirSync d (Path.dirname outputPath))
            outputPath minifiedCss with
    | Done d' =>
      Done (outputFileName, d', console σ ++ [LogCssBundled outputFileName])
    | Throws p => Throws p
    | OutOfFuel => OutOfFuel
    end
  | Throws p => Throws p
  | OutOfFuel => OutOfFuel
  end.

End Script.

(* ================================================================== *)
(** ** Partials, the site copy and content injection *)

(** [copy.json], with the values as the strings [replace] makes of
    them.  [header.nav] is [header_nav], [hero.title] is [hero_title],
    and so on. *)
Record navItem := { label : str; link : str }.
Record titled := { title : str; description : str }.

Record copyJSON := {
  header_nav : list navItem;
  hero_title : str;
  hero_description : str;
  hero_cta : str;
  invoices_label : str;
  invoices_amounts : list str;
  about_title : str;
  about_description : str;
  about_steps : list titled;
  services_title : str;
  services_description : str;
  services_list : list titled;
  contact_title : str;
  contact_description : str;
}.

(** The [partials] object: the fragment of each name. *)
Module P.
Record partials := {
  head : str;
  headerHTML : str;
  heroSection : str;
  invoices : str;
  aboutSection : str;
  steps : str;
  servicesSection : str;
  services : str;
  contactSection : str;
  contactForm : str;
  footerHTML : str;
}.
End P.

Definition mLABEL : str := lit "{{LABEL}}".
Definition mDESTINATION : str := lit "{{DESTINATION}}".
Definition mTITLE : str := lit "{{TITLE}}".
Definition mDESCRIPTION : str := lit "{{DESCRIPTION}}".
Definition mCTA : str := lit "{{CTA}}".
Definition mAMOUNT : str := lit "{{AMOUNT}}".

(** The loops [list.forEach(item => { fragment = fragment.replace(...) })]
    of [injectDynamicContent]. *)
Definition inject_nav (nav : list navItem) (fragment : str) : str :=
  fold_left (fun acc item =>
               replace mDESTINATION (link item)
                 (replace mLABEL (label item) acc))
            nav fragment.

Definition inject_amounts (amounts : list str) (fragment : str) : str :=
  fold_left (fun acc amount => replace mAMOUNT amount acc) amounts fragment.

Definition inject_titled (items : list titled) (fragment : str) : str :=
  fold_left (fun acc item =>
               replace mDESCRIPTION (description item)
                 (replace mTITLE (title item) acc))
            items fragment.

(** [injectDynamicContent()]: the partials after it, from the site copy
    and the partials before it. *)
Definition injectDynamicContent (c : copyJSON) (p : P.partials) : P.partials :=
  (* Header navigation *)
  let headerHTML := inject_nav (header_nav c) (P.headerHTML p) in
  (* Hero section content *)
  let heroSection :=
    replace mCTA (hero_cta c)
      (replace mDESCRIPTION (hero_description c)
        (replace mTITLE (hero_title c) (P.heroSection p))) in
  (* Invoices section *)
  let invoices :=
    replace_g (m_literal mLABEL) (invoices_label c) (P.invoices p) in
  let invoices := inject_amounts (invoices_amounts c) invoices in
  let heroSection := replace (lit "<!-- INVOICES -->") invoices heroSection in
  (* About section + steps *)
  let aboutSection :=
    replace mDESCRIPTION (about_description c)
      (replace mTITLE (about_title c) (P.aboutSection p)) in
  let steps := inject_titled (about_steps c) (P.steps p) in
  let aboutSection := replace (lit "<!-- STEPS -->") steps aboutSection in
  (* Services section + individual services *)
  let servicesSection :=
    replace mDESCRIPTION (services_description c)
      (replace mTITLE (services_title c) (P.servicesSection p)) in
  let services := inject_titled (services_list c) (P.services p) in
  let servicesSection :=
    replace (lit "<!-- SERVICES -->") services servicesSection in
  (* Contact section with nested contact form partial *)
  let contactSection :=
    replace (lit "<!-- CONTACT FORM -->") (P.contactForm p)
      (replace mDESCRIPTION (contact_description c)
        (replace mTITLE (contact_title c) (P.contactSection p))) in
  {| P.head := P.head p;
     P.headerHTML := headerHTML;
     P.heroSection := heroSection;
     P.invoices := invoices;
     P.aboutSection := aboutSection;
     P.steps := steps;
     P.servicesSection := servicesSection;
     P.services := services;
     P.contactSection := contactSection;
     P.contactForm := P.contactForm p;
     P.footerHTML := P.footerHTML p |}.

(* ================================================================== *)
(** ** HTML minification and page assembly *)

Module HtmlPattern.

(** [/>\s+</] *)
Definition m_between_tags : matcher :=
  fun _ s =>
    match s with
    | c :: r =>
      if c =? cGT then
        let '(ws, r') := span is_space r in
        match ws, r' with
        | _ :: _, c' :: _ =>
          if c' =? cLT then Some ((1 + length ws + 1)%nat, []) else None
        | _, _ => None
        end
      else None
    | [] => None
    end.

(** Where [^] holds under the [m] flag: at the start of the text and
    behind a line terminator. *)
Definition at_line_start (passed : str) : bool :=
  match passed with
  | [] => true
  | c :: _ => is_line_terminator c
  end.

(** Where [$] holds under the [m] flag: at the end of the text and in
    front of a line terminator. *)
Definition at_line_end (s : str) : bool :=
  match s with
  | [] => true
  | c :: _ => is_line_terminator c
  end.

(** [\s+$]: the longest run of white space, of one character at least,
    that ends where [$] holds. *)
Fixpoint spaces_to_line_end (s : str) : option nat :=
  match s with
  | [] => None
  | c :: s' =>
    if is_space c then
      match spaces_to_line_end s' with
      | Some k => Some (S k)
      | None => if at_line_end s' then Some 1%nat else None
      end
    else None
  end.

(** [/^\s+|\s+$/m] *)
Definition m_line_edges : matcher :=
  fun passed s =>
    let n := length (fst (span is_space s)) in
    if at_line_start passed && (1 <=? n)%nat then Some (n, [])
    else match spaces_to_line_end s with
         | Some k => Some (k, [])
         | None => None
         end.

(** [/\n+/] *)
Definition m_newlines : matcher :=
  fun _ s =>
    let n := length (fst (span (fun c => c =? cLF) s)) in
    if (1 <=? n)%nat then Some (n, []) else None.

Definition is_link_start (c : N) : bool :=
  negb ((c =? cDQ) || (c =? cSQ) || (c =? cCOLON) || (c =? cHASH) ||
        (c =? cQUERY)).

(** The link pattern of [validateLinks]: [href] or [src], an equals sign,
    a quote (single or double), then, as capture 1, a character that is
    no quote, colon, hash or question mark and every character up to the
    next quote, which ends the match. *)
Definition m_link : matcher :=
  fun _ s =>
    let attr := if startsWith (lit "href") s then Some 4%nat
                else if startsWith (lit "src") s then Some 3%nat
                else None in
    match attr with
    | Some a =>
      match drop a s with
      | e :: q :: c0 :: r =>
        if (e =? cEQ) && is_quote q && is_link_start c0 then
          let '(body, r') := span (fun c => negb (is_quote c)) r in
          match r' with
          | _ :: _ => Some ((a + 3 + length body + 1)%nat, [c0 :: body])
          | [] => None
          end
        else None
      | _ => None
      end
    | None => None
    end.

End HtmlPattern.

Import HtmlPattern.

(** [minifyHTML(html)] *)
Definition minifyHTML (html : str) : str :=
  trim
    (replace_g m_newlines []                               (* newlines *)
      (replace_g m_line_edges []                           (* trim lines *)
        (replace_g (m_spaces 2) (lit " ")                  (* runs of spaces *)
          (replace_g m_between_tags (lit "><")             (* between tags *)
            (replace_g (m_delimited (lit "<!--") (lit "-->")) []  (* comments *)
               html))))).

(** Build step 4, for one page shell: the partials go in at their marker
    comments and the link to the style sheet gets the hashed name ... *)
Definition composePage (shell : str) (p : P.partials) (hashedCssFile : str)
    : str :=
  replace (lit "<!-- FOOTER -->") (P.footerHTML p)
   (replace (lit "<!-- CONTACT SECTION -->") (P.contactSection p)
    (replace (lit "<!-- SERVICES SECTION -->") (P.servicesSection p)
     (replace (lit "<!-- ABOUT SECTION -->") (P.aboutSection p)
      (replace (lit "<!-- HERO SECTION -->") (P.heroSection p)
       (replace (lit "<!-- HEADER -->") (P.headerHTML p)
        (replace (lit "/css/bundle.css") (lit "/css/" ++ hashedCssFile)
         (replace (lit "<!-- HEAD -->") (P.head p) shell))))))).

(** ... then [/public/] is taken out of the URLs ... *)
Definition stripPublic (html : str) : str :=
  replace_g (m_literal (lit "/public/")) (lit "/") html.

(** ... and the minified page is what gets written. *)
Definition buildPage (shell : str) (p : P.partials) (hashedCssFile : str)
    : str :=
  minifyHTML (stripPublic (composePage shell p hashedCssFile)).

(* ================================================================== *)
(** ** Link validation *)

(** What [validateLinks] keeps as it goes: [errorsFound] and the console. *)
Record validation := {
  errorsFound : bool;
  warnings : list event;
}.

(** The [while] loop over the matches of one file.  An external link
    executes [return], which leaves the callback of [forEach]: the links
    behind it in the file are not looked at. *)
Fixpoint check_links (d : Fs.disk) (publicDir file : str) (links : list str)
    (v : validation) : validation :=
  match links with
  | [] => v
  | link :: rest =>
    if startsWith (lit "http") link || startsWith (lit "//") link then v
    else
      let targetPath := split_head cHASH (split_head cQUERY link) in
      let targetPath :=
        if endsWith [cSLASH] targetPath
        then targetPath ++ lit "index.html" else targetPath in
      let resolved := Path.join publicDir targetPath in
      check_links d publicDir file rest
        (if Fs.existsSync d resolved then v
         else {| errorsFound := true;
                 warnings := warnings v ++ [WarnBrokenLink file link] |})
  end.

(** The values of capture 1 over the matches of the link pattern. *)
Definition links_of (content : str) : list str :=
  List.map (fun '(_, caps) => default [] (caps !! 0%nat))
           (fst (scan_g m_link content)).

Fixpoint validate_files (d : Fs.disk) (publicDir : str) (files : list str)
    (v : validation) : outcome validation :=
  match files with
  | [] => Done v
  | file :: rest =>
    let filePath := Path.join publicDir file in
    match Fs.readFileSync d filePath with
    | None => Throws filePath
    | Some content =>
      validate_files d publicDir rest
        (check_links d publicDir file (links_of content) v)
    end
  end.

(** [validateLinks(publicDir)]: what it writes to the console. *)
Definition validateLinks (d : Fs.disk) (publicDir : str)
    : outcome (list event) :=
  let htmlFiles :=
    List.filter (fun f => str_eqb (Path.extname f) (lit ".html"))
                (Fs.readdirSync d publicDir) in
  match validate_files d publicDir htmlFiles
          {| errorsFound := false; warnings := [] |} with
  | Done v =>
    Done (if errorsFound v then warnings v
          else warnings v ++ [LogLinksValid])
  | Throws p => Throws p
  | OutOfFuel => OutOfFuel
  end.

(* ================================================================== *)
(** ** Vocabulary of the properties *)

(** [p] occurs in [s] (as a run of consecutive characters). *)
Definition occurs (p s : str) : Prop := ∃ a b, s = a ++ p ++ b.

(** [s.includes(p)] *)
Definition includes (p s : str) : bool :=
  match indexOf p s with
  | Some _ => true
  | None => false
  end.

(** A replacement template without [$$], [$&], [$`] and [$']: with a
    pattern that has no captures, it stands for itself. *)
Fixpoint plain (template : str) : bool :=
  match template with
  | [] => true
  | c :: t1 =>
    if c =? cDOLLAR then
      match t1 with
      | [] => true
      | d :: _ =>
        negb ((d =? cDOLLAR) || (d =? cAMP) || (d =? cBACKTICK) ||
              (d =? cSQ)) && plain t1
      end
    else plain t1
  end.

(** Two texts that differ in exactly one character. *)
Definition one_byte_apart (s s' : str) : Prop :=
  ∃ a x y b, x ≠ y ∧ s = a ++ x :: b ∧ s' = a ++ y :: b.

(** The name of the bundle, when the bundle step comes to an end. *)
Definition bundle_of (o : outcome (str * Fs.disk * list event)) : option str :=
  match o with
  | Done (outputFileName, _, _) => Some outputFileName
  | _ => None
  end.

(** What a disk holds as the bundle of a given name. *)
Definition written_bundle (__dirname : str) (d : Fs.disk)
    (outputFileName : str) : option Fs.entry :=
  d !! Path.join (Path.join (PUBLIC_DIR __dirname) (lit "css")) outputFileName.

(** *** Sample sites *)

(** A source tree whose only style sheet is [main.css]. *)
Definition site_with_css (css : str) : Fs.disk :=
  list_to_map [
    (lit "/site", Fs.Dir);
    (lit "/site/src", Fs.Dir);
    (lit "/site/src/assets", Fs.Dir);
    (lit "/site/src/assets/css", Fs.Dir);
    (lit "/site/src/assets/css/main.css", Fs.File css)
  ].

(** An output directory with one page. *)
Definition output_with_page (html : str) : Fs.disk :=
  list_to_map [
    (lit "/site", Fs.Dir);
    (lit "/site/public", Fs.Dir);
    (lit "/site/public/index.html", Fs.File html)
  ].

Definition no_partials : P.partials :=
  {| P.head := []; P.headerHTML := []; P.heroSection := [];
     P.invoices := []; P.aboutSection := []; P.steps := [];
     P.servicesSection := []; P.services := []; P.contactSection := [];
     P.contactForm := []; P.footerHTML := [] |}.

(** *** Substitution that takes the value as it is *)

(** First-occurrence substitution with the value inserted character for
    character. *)
Definition replace_verbatim (pattern value s : str) : str :=
  match indexOf pattern s with
  | None => s
  | Some i => take i s ++ value ++ drop (i + length pattern) s
  end.

(** Substitution at every match with the value inserted character for
    character. *)
Fixpoint replace_g_verbatim_from (m : matcher) (value : str) (skip : nat)
    (passed s : str) : str :=
  match s with
  | [] => []
  | c :: s' =>
    match skip with
    | S k => replace_g_verbatim_from m value k (c :: passed) s'
    | O =>
      match m passed s with
      | Some (n, _) =>
        value ++ replace_g_verbatim_from m value (pred n) (c :: passed) s'
      | None => c :: replace_g_verbatim_from m value 0 (c :: passed) s'
      end
    end
  end.

(** Injection as the specification words it: every placeholder token is
    replaced by the characters of its value, and every marker comment by
    the child fragment, with no character of them read as anything but
    itself.  The passes and their order are those of
    [injectDynamicContent]. *)
Definition injectVerbatim (c : copyJSON) (p : P.partials) : P.partials :=
  let headerHTML :=
    fold_left (fun acc item =>
                 replace_verbatim mDESTINATION (link item)
                   (replace_verbatim mLABEL (label item) acc))
              (header_nav c) (P.headerHTML p) in
  let heroSection :=
    replace_verbatim mCTA (hero_cta c)
      (replace_verbatim mDESCRIPTION (hero_description c)
        (replace_verbatim mTITLE (hero_title c) (P.heroSection p))) in
  let invoices :=
    replace_g_verbatim_from (m_literal mLABEL) (invoices_label c) 0 []
      (P.invoices p) in
  let invoices :=
    fold_left (fun acc amount => replace_verbatim mAMOUNT amount acc)
              (invoices_amounts c) invoices in
  let heroSection :=
    replace_verbatim (lit "<!-- INVOICES -->") invoices heroSection in
  let aboutSection :=
    replace_verbatim mDESCRIPTION (about_description c)
      (replace_verbatim mTITLE (about_title c) (P.aboutSection p)) in
  let steps :=
    fold_left (fun acc item =>
                 replace_verbatim mDESCRIPTION (description item)
                   (replace_verbatim mTITLE (title item) acc))
              (about_steps c) (P.steps p) in
  let aboutSection :=
    replace_verbatim (lit "<!-- STEPS -->") steps aboutSection in
  let servicesSection :=
    replace_verbatim mDESCRIPTION (services_description c)
      (replace_verbatim mTITLE (services_title c) (P.servicesSection p)) in
  let services :=
    fold_left (fun acc item =>
                 replace_verbatim mDESCRIPTION (description item)
                   (replace_verbatim mTITLE (title item) acc))
              (services_list c) (P.services p) in
  let servicesSection :=
    replace_verbatim (lit "<!-- SERVICES -->") services servicesSection in
  let contactSection :=
    replace_verbatim (lit "<!-- CONTACT FORM -->") (P.contactForm p)
      (replace_verbatim mDESCRIPTION (contact_description c)
        (replace_verbatim mTITLE (contact_title c) (P.contactSection p))) in
  {| P.head := P.head p;
     P.headerHTML := headerHTML;
     P.heroSection := heroSection;
     P.invoices := invoices;
     P.aboutSection := aboutSection;
     P.steps := steps;
     P.servicesSection := servicesSection;
     P.services := services;
     P.contactSection := contactSection;
     P.contactForm := P.contactForm p;
     P.footerHTML := P.footerHTML p |}.

Definition plain_titled (i : titled) : bool :=
  plain (title i) && plain (description i).

(** Every value of the site copy is a plain template. *)
Definition plain_copy (c : copyJSON) : bool :=
  forallb (fun i => plain (label i) && plain (link i)) (header_nav c) &&
  plain (hero_title c) && plain (hero_description c) && plain (hero_cta c) &&
  plain (invoices_label c) && forallb plain (invoices_amounts c) &&
  plain (about_title c) && plain (about_description c) &&
  forallb plain_titled (about_steps c) &&
  plain (services_title c) && plain (services_description c) &&
  forallb plain_titled (services_list c) &&
  plain (contact_title c) && plain (contact_description c).

(** *** Fragments with markers for list entries *)

(** No opening brace, the character every placeholder token begins with. *)
Definition no_brace (s : str) : bool :=
  forallb (fun c => negb (c =? cLBRACE)) s.

(** The markers that lists fill. *)
Inductive slot := SLabel | SDestination | SAmount.

Global Instance slot_eq_dec : EqDecision slot.
Proof. solve_decision. Defined.

Definition marker_of (k : slot) : str :=
  match k with
  | SLabel => mLABEL
  | SDestination => mDESTINATION
  | SAmount => mAMOUNT
  end.

(** The entries that wait for the markers of each kind, first to come
    first. *)
Definition entries := slot → list str.

Definition no_entries : entries := fun _ => [].

Definition nav_entries (nav : list navItem) : entries :=
  fun k =>
    match k with
    | SLabel => List.map label nav
    | SDestination => List.map link nav
    | SAmount => []
    end.

Definition amount_entries (amounts : list str) : entries :=
  fun k =>
    match k with
    | SAmount => amounts
    | _ => []
    end.

(** The entries left once the first one of kind [k] is used. *)
Definition rest_of (k : slot) (vals : entries) : entries :=
  fun k' => if decide (k = k') then tail (vals k') else vals k'.

(** A fragment given by its texts, each with the marker that stands
    behind it, and the text at its end, with the entries in the place of
    the markers: the first entry of a kind at the first marker of that
    kind, and so on.  Entries without a marker are left out; markers
    without an entry stay. *)
Fixpoint fill (pieces : list (str * slot)) (vals : entries) (rest : str)
    : str :=
  match pieces with
  | [] => rest
  | (t, k) :: ps =>
    match vals k with
    | v :: _ => t ++ v ++ fill ps (rest_of k vals) rest
    | [] => t ++ marker_of k ++ fill ps vals rest
    end
  end.

(** The fragment as it is loaded: every marker in its place. *)
Definition with_markers (pieces : list (str * slot)) (rest : str) : str :=
  fill pieces no_entries rest.

(** How many markers of kind [k] the fragment has. *)
Definition markers_of (k : slot) (pieces : list (str * slot)) : nat :=
  length (List.filter (fun p => bool_decide (p.2 = k)) pieces).

(** An entry that the theorem on list injection covers: a plain template
    without an opening brace. *)
Definition simple_entry (v : str) : bool := no_brace v && plain v.

(** One more entry of kind [k], behind those that wait. *)
Definition add_entry (k : slot) (v : str) (vals : entries) : entries :=
  fun k' => if decide (k = k') then vals k' ++ [v] else vals k'.

(** Entries without an opening brace. *)
Definition good_entries (vals : entries) : Prop :=
  ∀ k, Forall (λ v, no_brace v = true) (vals k).

Definition simple_item (i : navItem) : bool :=
  simple_entry (label i) && simple_entry (link i).

(** No occurrence of [M] starts inside [pre], whatever follows [pre]. *)
Definition blind (M pre : str) : Prop :=
  ∀ x y rest, pre = x ++ y → y ≠ [] → startsWith M (y ++ rest) = false.

(** The header fragment of the sample partials, piece by piece. *)
Definition sample_nav_pieces : list (str * slot) :=
  [ (lit "<nav><a href='", SDestination); (lit "'>", SLabel);
    (lit "</a><a href='", SDestination); (lit "'>", SLabel);
    (lit "</a><a href='", SDestination); (lit "'>", SLabel) ].

Definition sample_amount_pieces : list (str * slot) :=
  [ (lit "<li>Invoice ", SAmount); (lit "</li><li>Invoice ", SAmount);
    (lit "</li><li>Invoice ", SAmount) ].

(** *** A sample site copy and its partials *)

Definition sample_copy : copyJSON :=
  {| header_nav :=
       [ {| label := lit "Home"; link := lit "/" |};
         {| label := lit "About"; link := lit "/#about" |};
         {| label := lit "Contact"; link := lit "/#contact" |} ];
     hero_title := lit "Get paid sooner";
     hero_description := lit "We collect what you are owed.";
     hero_cta := lit "Start";
     invoices_label := lit "Invoice";
     invoices_amounts := [lit "$1,200"; lit "$850"];
     about_title := lit "How it works";
     about_description := lit "Three steps.";
     about_steps :=
       [ {| title := lit "Send"; description := lit "Send us the invoice." |} ];
     services_title := lit "Services";
     services_description := lit "What we do.";
     services_list :=
       [ {| title := lit "Recovery"; description := lit "We recover." |} ];
     contact_title := lit "Contact";
     contact_description := lit "Write to us." |}.

Definition sample_partials : P.partials :=
  {| P.head := lit "<link href='/css/bundle.css'>";
     P.headerHTML :=
       lit "<nav><a href='{{DESTINATION}}'>{{LABEL}}</a><a href='{{DESTINATION}}'>{{LABEL}}</a><a href='{{DESTINATION}}'>{{LABEL}}</a></nav>";
     P.heroSection :=
       lit "<h1>{{TITLE}}</h1><p>{{DESCRIPTION}}</p><a>{{CTA}}</a><!-- INVOICES -->";
     P.invoices :=
       lit "<li>{{LABEL}} {{AMOUNT}}</li><li>{{LABEL}} {{AMOUNT}}</li>";
     P.aboutSection := lit "<h2>{{TITLE}}</h2><p>{{DESCRIPTION}}</p><!-- STEPS -->";
     P.steps := lit "<h3>{{TITLE}}</h3><p>{{DESCRIPTION}}</p>";
     P.servicesSection :=
       lit "<h2>{{TITLE}}</h2><p>{{DESCRIPTION}}</p><!-- SERVICES -->";
     P.services := lit "<h3>{{TITLE}}</h3><p>{{DESCRIPTION}}</p>";
     P.contactSection :=
       lit "<h2>{{TITLE}}</h2><p>{{DESCRIPTION}}</p><!-- CONTACT FORM -->";
     P.contactForm := lit "<form></form>";
     P.footerHTML := lit "<footer></footer>" |}.

(** The sample copy with other invoice amounts. *)
Definition copy_with_amounts (amounts : list str) : copyJSON :=
  {| header_nav := header_nav sample_copy;
     hero_title := hero_title sample_copy;
     hero_description := hero_description sample_copy;
     hero_cta := hero_cta sample_copy;
     invoices_label := invoices_label sample_copy;
     invoices_amounts := amounts;
     about_title := about_title sample_copy;
     about_description := about_description sample_copy;
     about_steps := about_steps sample_copy;
     services_title := services_title sample_copy;
     services_description := services_description sample_copy;
     services_list := services_list sample_copy;
     contact_title := contact_title sample_copy;
     contact_description := contact_description sample_copy |}.

(** *** White space and comments *)

(** The pattern matches somewhere in [s]. *)
Fixpoint finds_from (m : matcher) (passed s : str) : bool :=
  match s with
  | [] => false
  | c :: s' =>
    match m passed s with
    | Some _ => true
    | None => finds_from m (c :: passed) s'
    end
  end.

Definition finds (m : matcher) (s : str) : bool := finds_from m [] s.

(** A CSS comment, an HTML comment. *)
Definition css_comment : matcher := m_delimited (lit "/*") (lit "*/").
Definition html_comment : matcher := m_delimited (lit "<!--") (lit "-->").

(** Every two neighbours in [s] are related by [R]. *)
Fixpoint chain (R : N → N → bool) (s : str) : bool :=
  match s with
  | [] => true
  | c :: s' =>
    match s' with
    | [] => true
    | d :: _ => R c d && chain R s'
    end
  end.

(** No two white-space characters side by side. *)
Definition apart (c d : N) : bool := negb (is_space c && is_space d).
Definition no_space_run (s : str) : bool := chain apart s.

(** The text without its white space. *)
Definition strip_spaces (s : str) : str :=
  List.filter (fun c => negb (is_space c)) s.

(** [t] is [s] with some of its white space taken out. *)
Inductive dropped_spaces : str → str → Prop :=
| ds_nil : dropped_spaces [] []
| ds_keep c s t : dropped_spaces s t → dropped_spaces (c :: s) (c :: t)
| ds_drop c s t :
    is_space c = true → dropped_spaces s t → dropped_spaces (c :: s) t.

(** Minified CSS: all white space is single spaces, none of them next to
    one of the symbols. *)
Definition only_space (c : N) : bool := negb (is_space c) || (c =? cSP).
Definition snug (c d : N) : bool :=
  negb (is_space c && (is_space d || is_css_symbol d)) &&
  negb (is_css_symbol c && is_space d).
Definition tidy (s : str) : bool := forallb only_space s && chain snug s.
Definition single_spaced (s : str) : bool :=
  forallb only_space s && chain apart s.

(** The passes of [minifyCSS], from any point of the text on. *)
Definition collapse_from (passed s : str) : str :=
  replace_g_from (m_spaces 1) (lit " ") 0 passed s.
Definition tighten_from (passed s : str) : str :=
  replace_g_from m_css_symbol (lit "$1") 0 passed s.
Definition unsemi_from (passed s : str) : str :=
  replace_g_from (m_literal (lit ";}")) (lit "}") 0 passed s.

(** *** The bundle, piece by piece *)

(** A piece of the bundle: the file it was read from and the text. *)
Abbreviation chunk := (str * str)%type.

Definition text_of (chunks : list chunk) : str :=
  concat (List.map snd chunks).

Fixpoint trace_each {S : Type}
    (owner : str) (callback : list str → S → outcome (list chunk * S))
    (matches : list (str * list str)) (σ : S) : outcome (list chunk * S) :=
  match matches with
  | [] => Done ([], σ)
  | (text, caps) :: rest =>
    match callback caps σ with
    | Done (r, σ1) =>
      match trace_each owner callback rest σ1 with
      | Done (out, σ2) => Done ((owner, text) :: r ++ out, σ2)
      | failed => failed
      end
    | failed => failed
    end
  end.

Definition trace_import
    (recur : str → bundler → outcome (list chunk * bundler))
    (d : Fs.disk) (filePath : str) (caps : list str) (σ : bundler)
    : outcome (list chunk * bundler) :=
  let importPath := default [] (caps !! 0%nat) in
  let resolvedPath := Path.resolve (Path.dirname filePath) importPath in
  if negb (Fs.existsSync d resolvedPath)
  then Done ([], warn (WarnMissingImport resolvedPath) σ)
  else recur resolvedPath σ.

(** The run of [inlineCSS] with the bundle kept in pieces: the texts
    between the [@import] statements of each file that is read, in the
    order in which they come into the bundle, each with its file. *)
Fixpoint inlineCSS_traced (fuel : nat) (d : Fs.disk) (filePath : str)
    (σ : bundler) : outcome (list chunk * bundler) :=
  match fuel with
  | O => OutOfFuel
  | S fuel' =>
    if bool_decide (filePath ∈ seen σ) then Done ([], σ)
    else
      let σ1 := seen_add filePath σ in
      match Fs.readFileSync d filePath with
      | None => Throws filePath
      | Some content =>
        let '(matches, rest) := scan_g m_import content in
        match
          trace_each filePath
            (trace_import (inlineCSS_traced fuel' d) d filePath) matches σ1
        with
        | Done (out, σ2) => Done (out ++ [(filePath, rest)], σ2)
        | failed => failed
        end
      end
  end.

(** The pieces without their files. *)
Definition erase (o : outcome (list chunk * bundler))
    : outcome (str * bundler) :=
  match o with
  | Done (chunks, σ) => Done (text_of chunks, σ)
  | Throws p => Throws p
  | OutOfFuel => OutOfFuel
  end.

(** The texts of a file between its [@import] statements, the last one
    behind the last statement. *)
Definition file_texts (d : Fs.disk) (p : str) : list str :=
  match Fs.readFileSync d p with
  | Some content =>
    let '(matches, rest) := scan_g m_import content in
    List.map fst matches ++ [rest]
  | None => []
  end.



(** The texts that the pieces hold of one file. *)
Definition owned (p : str) (chunks : list chunk) : list str :=
  List.map snd (List.filter (fun c => bool_decide (c.1 = p)) chunks).





(** Style sheets that import one another. *)
Definition css_site (files : list (str * str)) : Fs.disk :=
  list_to_map (List.map (fun '(name, css) =>
                           (lit "/site/src/assets/css/" ++ name, Fs.File css))
                        files).

(** The files of the disk that are not in the seen set yet. *)
Definition unseen (d : Fs.disk) (σ : bundler) : nat :=
  size (dom d ∖ (list_to_set (seen σ) : gset str)).

(** What a run says of the texts of a file [q]: none of them if [q] was
    seen before or is not seen after, all of them once if [q] is seen in
    the run. *)
Definition once (d : Fs.disk) (q : str) (σ σ' : bundler)
    (chunks : list chunk) : Prop :=
  (q ∈ seen σ → owned q chunks = []) ∧
  (q ∉ seen σ' → owned q chunks = []) ∧
  (q ∉ seen σ → q ∈ seen σ' → owned q chunks = file_texts d q).





(* ================================================================== *)
(** ** Strings: prefixes, occurrences, templates *)

Section StringFacts.

Implicit Types (p s t : str) (c : N).

Lemma startsWith_app p r : startsWith p (p ++ r) = true.
Proof. induction p as [|x p IH]; simpl; [done|]. by rewrite N.eqb_refl. Qed.

Lemma startsWith_inv p s : startsWith p s = true → ∃ r, s = p ++ r.
Proof.
  revert s. induction p as [|x p IH]; intros s H; simpl in *.
  - by exists s.
  - destruct s as [|y s]; [done|].
    apply andb_true_iff in H as [Hxy H]. apply N.eqb_eq in Hxy as ->.
    destruct (IH _ H) as [r ->]. by exists r.
Qed.

Lemma startsWith_spec p s : startsWith p s = true ↔ ∃ r, s = p ++ r.
Proof. split; [apply startsWith_inv|]. intros [r ->]. apply startsWith_app. Qed.

Lemma startsWith_cons x p c s :
  startsWith (x :: p) (c :: s) = true ↔ x = c ∧ startsWith p s = true.
Proof.
  cbn [startsWith]. rewrite andb_true_iff, N.eqb_eq. done.
Qed.

Lemma startsWith_false_head x p c s :
  x ≠ c → startsWith (x :: p) (c :: s) = false.
Proof. intros H. simpl. apply N.eqb_neq in H. by rewrite H. Qed.

Lemma occurs_here p r : occurs p (p ++ r).
Proof. by exists [], r. Qed.

Lemma occurs_cons p c s : occurs p s → occurs p (c :: s).
Proof. intros (a & b & ->). by exists (c :: a), b. Qed.

Lemma occurs_app_r p a s : occurs p s → occurs p (a ++ s).
Proof.
  intros (x & y & ->). exists (a ++ x), y. by rewrite <- app_assoc.
Qed.

Lemma occurs_app_l p s b : occurs p s → occurs p (s ++ b).
Proof.
  intros (x & y & ->). exists x, (y ++ b). by rewrite <- !app_assoc.
Qed.

(** An occurrence in [c :: s] starts at [c] or lies in [s]. *)
Lemma occurs_cons_inv p c s :
  occurs p (c :: s) → startsWith p (c :: s) = true ∨ occurs p s.
Proof.
  intros (a & b & E). destruct a as [|x a]; simpl in E.
  - left. rewrite E. apply startsWith_app.
  - right. injection E as -> ->. by exists a, b.
Qed.

Lemma indexOf_Some p s i :
  indexOf p s = Some i → ∃ a b, s = a ++ p ++ b ∧ length a = i.
Proof.
  revert i. induction s as [|c s IH]; intros i; simpl.
  - destruct (startsWith p []) eqn:E; [|done].
    intros [= <-]. apply startsWith_inv in E as [r E]. by exists [], r.
  - destruct (startsWith p (c :: s)) eqn:E.
    + intros [= <-]. apply startsWith_inv in E as [r E]. by exists [], r.
    + destruct (indexOf p s) as [j|] eqn:Ej; [|done]. simpl. intros [= <-].
      destruct (IH j eq_refl) as (a & b & -> & Hl).
      exists (c :: a), b. simpl. by rewrite Hl.
Qed.

Lemma indexOf_None p s : indexOf p s = None → ¬ occurs p s.
Proof.
  induction s as [|c s IH]; simpl.
  - destruct (startsWith p []) eqn:E; [done|]. intros _ (a & b & H).
    destruct a; simpl in H; [|done].
    rewrite H in E. by rewrite startsWith_app in E.
  - destruct (startsWith p (c :: s)) eqn:E; [done|].
    destruct (indexOf p s) eqn:Ei; [done|]. intros _ H.
    apply occurs_cons_inv in H as [H|H]; [congruence|by apply IH].
Qed.

Lemma includes_true p s : includes p s = true ↔ occurs p s.
Proof.
  unfold includes. destruct (indexOf p s) as [i|] eqn:E.
  - split; [|done]. intros _.
    destruct (indexOf_Some _ _ _ E) as (a & b & -> & _). by exists a, b.
  - split; [done|]. intros H. by apply indexOf_None in E.
Qed.

Lemma includes_false p s : includes p s = false ↔ ¬ occurs p s.
Proof.
  rewrite <- includes_true. destruct (includes p s); split; try done.
Qed.

(** Where the first occurrence is, when nothing occurs earlier. *)
Lemma indexOf_first p a b :
  (∀ x y, a = x ++ y → y ≠ [] → startsWith p (y ++ p ++ b) = false) →
  indexOf p (a ++ p ++ b) = Some (length a).
Proof.
  induction a as [|c a IH]; intros H; simpl.
  - destruct p; simpl; [by destruct b|].
    by rewrite N.eqb_refl, startsWith_app.
  - assert (E : startsWith p (c :: a ++ p ++ b) = false)
      by (by apply (H [] (c :: a))).
    rewrite E. rewrite IH; [done|].
    intros x y -> Hy. by apply (H (c :: x) y).
Qed.

(** *** Templates *)

Lemma plain_tail c t : plain (c :: t) = true → plain t = true.
Proof.
  simpl. destruct (c =? cDOLLAR); [|done].
  destruct t; [done|]. by intros [_ ?]%andb_true_iff.
Qed.

Lemma GetSubstitution_plain matched before after t :
  plain t = true → GetSubstitution matched before after [] t = t.
Proof.
  remember (length t) as n eqn:Hn. revert t Hn.
  induction (lt_wf n) as [n _ IH]. intros t -> Hp.
  destruct t as [|c t1]; [done|].
  pose proof (plain_tail _ _ Hp) as Hp1.
  simpl. destruct (c =? cDOLLAR) eqn:Ec; simpl.
  2:{ f_equal. apply (IH (length t1)); simpl; [lia|done..]. }
  apply N.eqb_eq in Ec as ->.
  destruct t1 as [|d t2]; [done|].
  pose proof (plain_tail _ _ Hp1) as Hp2.
  simpl in Hp. apply andb_true_iff in Hp as [Hd _].
  apply negb_true_iff in Hd.
  repeat (apply orb_false_iff in Hd as [Hd ?]).
  rewrite Hd. replace (d =? cAMP) with false by done.
  replace (d =? cBACKTICK) with false by done.
  replace (d =? cSQ) with false by done.
  assert (R2 : GetSubstitution matched before after [] t2 = t2)
    by (apply (IH (length t2)); simpl; [lia|done..]).
  destruct (is_digit d) eqn:Edig.
  - assert (One : match capture [] (digit_val d) with
                  | Some cap => cap ++ GetSubstitution matched before after [] t2
                  | None => cDOLLAR :: d :: GetSubstitution matched before after [] t2
                  end = cDOLLAR :: d :: t2).
    { rewrite R2. unfold capture. by destruct (digit_val d). }
    destruct t2 as [|d2 t3]; [by rewrite One|].
    destruct (is_digit d2) eqn:Edig2; [|by rewrite One].
    destruct (_ <=? _)%nat eqn:Eidx; [|by rewrite One].
    assert (R3 : GetSubstitution matched before after [] t3 = t3).
    { apply (IH (length t3)); simpl; [lia|done|]. by apply plain_tail in Hp2. }
    rewrite R3. unfold capture.
    match goal with
    | |- context [match ?x with 0%nat => _ | S _ => _ end] => destruct x
    end; by rewrite ?lookup_nil.
  - f_equal. apply (IH (length (d :: t2))); simpl; [lia|done..].
Qed.

(** *** The global replacement, one step at a time *)

Lemma replace_g_skip m t n passed s :
  replace_g_from m t n passed s
  = replace_g_from m t 0 (rev (take n s) ++ passed) (drop n s).
Proof.
  revert passed s. induction n as [|n IH]; intros passed s.
  - by rewrite take_0, drop_0.
  - destruct s as [|c s]; [done|]. simpl. rewrite IH.
    by rewrite <- app_assoc.
Qed.

Lemma replace_g_nil m t passed : replace_g_from m t 0 passed [] = [].
Proof. done. Qed.

Lemma replace_g_miss m t passed c s :
  m passed (c :: s) = None →
  replace_g_from m t 0 passed (c :: s)
  = c :: replace_g_from m t 0 (c :: passed) s.
Proof. intros H. simpl. by rewrite H. Qed.

Lemma replace_g_hit m t passed c s n caps :
  m passed (c :: s) = Some (S n, caps) →
  replace_g_from m t 0 passed (c :: s)
  = GetSubstitution (take (S n) (c :: s)) (rev passed) (drop (S n) (c :: s))
      caps t
    ++ replace_g_from m t 0 (rev (take (S n) (c :: s)) ++ passed)
         (drop (S n) (c :: s)).
Proof.
  intros H. cbn [replace_g_from]. rewrite H. cbn [pred].
  rewrite replace_g_skip. simpl. by rewrite <- app_assoc.
Qed.

End StringFacts.

(* ================================================================== *)
(** ** Runs of characters, and the global replacement by cases *)

Section Runs.

Implicit Types (p : N → bool) (s t : str) (c d : N).

Lemma span_eq p s : s = (span p s).1 ++ (span p s).2.
Proof.
  induction s as [|c s IH]; [done|]. simpl.
  destruct (p c); [|done]. destruct (span p s) as [a b]. simpl in *.
  by f_equal.
Qed.

Lemma span_run p s : Forall (λ c, p c = true) (span p s).1.
Proof.
  induction s as [|c s IH]; simpl; [constructor|].
  destruct (p c) eqn:E; [|constructor].
  destruct (span p s) as [a b]. simpl in *. by constructor.
Qed.

Lemma span_stop p s :
  match (span p s).2 with
  | [] => True
  | d :: _ => p d = false
  end.
Proof.
  induction s as [|c s IH]; simpl; [done|].
  destruct (p c) eqn:E; [|done]. by destruct (span p s) as [a b].
Qed.

Lemma span_no p c s : p c = false → span p (c :: s) = ([], c :: s).
Proof. intros H. simpl. by rewrite H. Qed.

Lemma span_yes p c s :
  p c = true → span p (c :: s) = (c :: (span p s).1, (span p s).2).
Proof. intros H. simpl. rewrite H. by destruct (span p s). Qed.

Lemma span_take p s : take (length (span p s).1) s = (span p s).1.
Proof. rewrite (span_eq p s) at 2. by rewrite take_app_length. Qed.

Lemma span_drop p s : drop (length (span p s).1) s = (span p s).2.
Proof. rewrite (span_eq p s) at 2. by rewrite drop_app_length. Qed.

Lemma span_stopped p s :
  match s with [] => True | d :: _ => p d = false end → span p s = ([], s).
Proof. destruct s as [|d s]; [done|]. apply span_no. Qed.

(** The global replacement, by the cases of the text and of the matcher. *)
Lemma replace_g_cases (m : matcher) (template : str)
    (Q : str → str → str → Prop) :
  (∀ passed s caps, m passed s ≠ Some (0%nat, caps)) →
  (∀ passed, Q passed [] []) →
  (∀ passed c s out,
     m passed (c :: s) = None → Q (c :: passed) s out →
     Q passed (c :: s) (c :: out)) →
  (∀ passed s n caps out,
     m passed s = Some (n, caps) → (0 < n ≤ length s)%nat →
     Q (rev (take n s) ++ passed) (drop n s) out →
     Q passed s
       (GetSubstitution (take n s) (rev passed) (drop n s) caps template
          ++ out)) →
  (∀ passed s n caps, m passed s = Some (n, caps) → (n ≤ length s)%nat) →
  ∀ s passed, Q passed s (replace_g_from m template 0 passed s).
Proof.
  intros Hz Hnil Hmiss Hhit Hlen s.
  remember (length s) as k eqn:Hk. revert s Hk.
  induction (lt_wf k) as [k _ IH]. intros s -> passed.
  destruct s as [|c s]; [apply Hnil|].
  destruct (m passed (c :: s)) as [[n caps]|] eqn:E.
  - destruct n as [|n]; [by apply Hz in E|].
    rewrite (replace_g_hit _ _ _ _ _ _ _ E).
    pose proof (Hlen _ _ _ _ E).
    apply Hhit; [done|lia|].
    eapply (IH (length (drop (S n) (c :: s)))); [|done].
    rewrite length_drop. simpl. lia.
  - rewrite replace_g_miss by done. apply Hmiss; [done|].
    eapply (IH (length s)); [simpl; lia|done].
Qed.

(** Where the pattern matches nowhere, nothing is replaced. *)
Lemma replace_g_no_match m template s :
  ∀ passed, finds_from m passed s = false →
            replace_g_from m template 0 passed s = s.
Proof.
  induction s as [|c s IH]; intros passed H; [done|].
  cbn [finds_from] in H. destruct (m passed (c :: s)) eqn:E; [done|].
  rewrite replace_g_miss by done. by rewrite IH.
Qed.

(** *** Chains *)

Lemma chain_cons R c s :
  chain R (c :: s) = true ↔
  match s with [] => True | d :: _ => R c d = true end ∧ chain R s = true.
Proof.
  destruct s as [|d s]; simpl; [tauto|]. by rewrite andb_true_iff.
Qed.

Lemma chain_tail R c s : chain R (c :: s) = true → chain R s = true.
Proof. by intros [_ ?]%chain_cons. Qed.

Lemma chain_app_l R a b : chain R (a ++ b) = true → chain R a = true.
Proof.
  induction a as [|c a IH]; [done|]. simpl app.
  intros [H1 H2]%chain_cons. apply chain_cons. split; [|by apply IH].
  destruct a; [done|]. done.
Qed.

Lemma chain_app_r R a b : chain R (a ++ b) = true → chain R b = true.
Proof.
  induction a as [|c a IH]; [done|]. simpl app.
  intros [_ H2]%chain_cons. by apply IH.
Qed.

(** *** Trimming *)

Lemma trimStart_split s :
  ∃ w, s = w ++ trimStart s ∧ Forall (λ c, is_space c = true) w.
Proof.
  induction s as [|c s (w & E & Hw)]; [by exists []|]. simpl.
  destruct (is_space c) eqn:Ec.
  - exists (c :: w). split; [simpl; by f_equal|by constructor].
  - by exists [].
Qed.

Lemma trimStart_head s :
  match trimStart s with [] => True | d :: _ => is_space d = false end.
Proof.
  induction s as [|c s IH]; [done|]. simpl.
  destruct (is_space c) eqn:Ec; [done|]. simpl. done.
Qed.

Lemma trimStart_id s :
  match s with [] => True | d :: _ => is_space d = false end →
  trimStart s = s.
Proof. destruct s as [|d s]; [done|]. simpl. by intros ->. Qed.

Lemma trimEnd_split s :
  ∃ w, s = trimEnd s ++ w ∧ Forall (λ c, is_space c = true) w.
Proof.
  destruct (trimStart_split (rev s)) as (w & E & Hw).
  exists (rev w). split.
  - unfold trimEnd. rewrite <- rev_app_distr, <- E. by rewrite rev_involutive.
  - by apply Forall_rev.
Qed.

Lemma trimEnd_last s :
  match rev (trimEnd s) with [] => True | d :: _ => is_space d = false end.
Proof. unfold trimEnd. rewrite rev_involutive. apply trimStart_head. Qed.

Lemma trimEnd_id s :
  match rev s with [] => True | d :: _ => is_space d = false end →
  trimEnd s = s.
Proof.
  intros H. unfold trimEnd. rewrite trimStart_id by done.
  apply rev_involutive.
Qed.

Lemma trim_head s :
  match trim s with [] => True | d :: _ => is_space d = false end.
Proof.
  unfold trim. pose proof (trimStart_head s) as H.
  destruct (trimEnd_split (trimStart s)) as (w & E & _).
  destruct (trimEnd (trimStart s)) as [|d u]; [done|].
  rewrite E in H. done.
Qed.

Lemma trim_trim s : trim (trim s) = trim s.
Proof.
  unfold trim at 1. rewrite (trimStart_id (trim s)) by apply trim_head.
  apply trimEnd_id. unfold trim. apply trimEnd_last.
Qed.

End Runs.

(* ================================================================== *)
(** ** Inlining of imports: the run and its pieces *)

Section Inline.

Variable d : Fs.disk.

Implicit Types (p q : str) (σ : bundler) (fuel : nat)
  (chunks : list chunk) (ms : list (str * list str)).

Lemma text_of_app a b : text_of (a ++ b) = text_of a ++ text_of b.
Proof. unfold text_of. by rewrite List.map_app, concat_app. Qed.

Lemma text_of_cons p t a : text_of ((p, t) :: a) = t ++ text_of a.
Proof. done. Qed.

(** *** The pieces put together are the bundle *)

Lemma replace_each_erase recur trecur p ms σ :
  (∀ q σ', recur q σ' = erase (trecur q σ')) →
  replace_each (inline_import recur d p) ms σ
  = erase (trace_each p (trace_import trecur d p) ms σ).
Proof.
  intros Hr. revert σ. induction ms as [|[t caps] ms IH]; intros σ; [done|].
  cbn [replace_each trace_each].
  assert (E : inline_import recur d p caps σ
              = erase (trace_import trecur d p caps σ)).
  { unfold inline_import, trace_import.
    destruct (negb _); [done|apply Hr]. }
  rewrite E. destruct (trace_import trecur d p caps σ) as [[r σ1]| |]; [|done..].
  simpl. rewrite IH.
  destruct (trace_each p _ ms σ1) as [[out σ2]| |]; [|done..].
  simpl. by rewrite text_of_cons, text_of_app.
Qed.

Lemma inlineCSS_erase fuel :
  ∀ p σ, inlineCSS fuel d p σ = erase (inlineCSS_traced fuel d p σ).
Proof.
  induction fuel as [|fuel IH]; intros p σ; [done|].
  cbn [inlineCSS inlineCSS_traced].
  destruct (bool_decide (p ∈ seen σ)); [done|].
  destruct (Fs.readFileSync d p) as [content|]; [|done].
  destruct (scan_g m_import content) as [ms rest].
  rewrite (replace_each_erase _ (inlineCSS_traced fuel d)) by done.
  destruct (trace_each p _ ms _) as [[out σ2]| |]; [|done..].
  simpl. rewrite text_of_app.
  change (text_of [(p, rest)]) with (rest ++ []). by rewrite app_nil_r.
Qed.

(** *** The seen set only grows *)

Lemma seen_add_prefix p σ : seen σ `prefix_of` seen (seen_add p σ).
Proof.
  unfold seen_add. simpl. destruct (bool_decide _); [done|].
  by apply prefix_app_r.
Qed.

Lemma trace_each_seen (cb : list str → bundler → outcome (list chunk * bundler))
    p ms :
  (∀ caps σ r σ', cb caps σ = Done (r, σ') → seen σ `prefix_of` seen σ') →
  ∀ σ out σ', trace_each p cb ms σ = Done (out, σ') →
              seen σ `prefix_of` seen σ'.
Proof.
  intros Hcb. induction ms as [|[t caps] ms IH]; intros σ out σ'.
  - by intros [= _ <-].
  - cbn [trace_each]. destruct (cb caps σ) as [[r σ1]| |] eqn:E1; [|done..].
    destruct (trace_each p cb ms σ1) as [[o σ2]| |] eqn:E2; [|done..].
    intros [= _ <-]. etrans; [by eapply Hcb|by eapply IH].
Qed.

Lemma trace_import_seen trecur p :
  (∀ q σ r σ', trecur q σ = Done (r, σ') → seen σ `prefix_of` seen σ') →
  ∀ caps σ r σ', trace_import trecur d p caps σ = Done (r, σ') →
                 seen σ `prefix_of` seen σ'.
Proof.
  intros Hr caps σ r σ'. unfold trace_import.
  destruct (negb _); [by intros [= _ <-]|apply Hr].
Qed.

Lemma inlineCSS_traced_seen fuel :
  ∀ p σ chunks σ', inlineCSS_traced fuel d p σ = Done (chunks, σ') →
                   seen σ `prefix_of` seen σ'.
Proof.
  induction fuel as [|fuel IH]; intros p σ chunks σ'; [done|].
  cbn [inlineCSS_traced].
  destruct (bool_decide (p ∈ seen σ)); [by intros [= _ <-]|].
  destruct (Fs.readFileSync d p) as [content|]; [|done].
  destruct (scan_g m_import content) as [ms rest].
  destruct (trace_each p _ ms _) as [[out σ2]| |] eqn:E; [|done..].
  intros [= _ <-]. etrans; [apply (seen_add_prefix p)|].
  eapply trace_each_seen; [|exact E]. by apply trace_import_seen.
Qed.

(** *** The run comes to an end *)

Lemma unseen_prefix σ σ' :
  seen σ `prefix_of` seen σ' → (unseen d σ' ≤ unseen d σ)%nat.
Proof.
  intros [k E]. unfold unseen. apply subseteq_size. rewrite E.
  rewrite list_to_set_app_L. set_solver.
Qed.

Lemma unseen_add p σ :
  p ∉ seen σ → is_Some (d !! p) → (unseen d (seen_add p σ) < unseen d σ)%nat.
Proof.
  intros Hp Hd. unfold unseen, seen_add. simpl.
  rewrite bool_decide_eq_false_2 by done.
  apply subset_size. rewrite list_to_set_app_L.
  apply elem_of_dom in Hd.
  assert (p ∉ (list_to_set (seen σ) : gset str)) by (by rewrite elem_of_list_to_set).
  set_solver.
Qed.

Lemma trace_each_ends (cb : list str → bundler → outcome (list chunk * bundler))
    p ms (n : nat) :
  (∀ caps σ r σ', cb caps σ = Done (r, σ') → seen σ `prefix_of` seen σ') →
  (∀ caps σ, (unseen d σ < n)%nat → cb caps σ ≠ OutOfFuel) →
  ∀ σ, (unseen d σ < n)%nat → trace_each p cb ms σ ≠ OutOfFuel.
Proof.
  intros Hseen Hcb. induction ms as [|[t caps] ms IH]; intros σ Hσ; [done|].
  cbn [trace_each]. pose proof (Hcb caps σ Hσ) as H1.
  destruct (cb caps σ) as [[r σ1]| |] eqn:E1; [|done..].
  assert (Hσ1 : (unseen d σ1 < n)%nat).
  { apply Hseen in E1. apply unseen_prefix in E1. lia. }
  pose proof (IH σ1 Hσ1) as H2.
  by destruct (trace_each p cb ms σ1) as [[o σ2]| |].
Qed.

Lemma inlineCSS_traced_ends fuel :
  ∀ p σ, (unseen d σ < fuel)%nat → inlineCSS_traced fuel d p σ ≠ OutOfFuel.
Proof.
  induction fuel as [|fuel IH]; intros p σ Hσ; [lia|].
  cbn [inlineCSS_traced].
  destruct (bool_decide (p ∈ seen σ)) eqn:Ep; [done|].
  apply bool_decide_eq_false in Ep.
  destruct (Fs.readFileSync d p) as [content|] eqn:Er; [|done].
  destruct (scan_g m_import content) as [ms rest].
  assert (Hd : is_Some (d !! p)).
  { unfold Fs.readFileSync in Er. destruct (d !! p); [eauto|done]. }
  pose proof (unseen_add p σ Ep Hd) as Hlt.
  assert (H : trace_each p (trace_import (inlineCSS_traced fuel d) d p) ms
                (seen_add p σ) ≠ OutOfFuel).
  { apply (trace_each_ends _ _ _ fuel).
    - apply trace_import_seen, inlineCSS_traced_seen.
    - intros caps σ' Hσ'. unfold trace_import.
      destruct (negb _); [done|by apply IH].
    - lia. }
  by destruct (trace_each p _ ms _) as [[out σ2]| |].
Qed.

Lemma unseen_bound σ : (unseen d σ < inline_fuel d)%nat.
Proof.
  unfold unseen, inline_fuel.
  assert (size (dom d ∖ (list_to_set (seen σ) : gset str)) ≤ size (dom d))%nat
    by (apply subseteq_size; set_solver).
  rewrite size_dom in H. lia.
Qed.

(** *** More fuel changes nothing *)

Lemma trace_each_more (cb1 cb2 : list str → bundler → outcome (list chunk * bundler))
    p ms :
  (∀ caps σ, cb1 caps σ ≠ OutOfFuel → cb2 caps σ = cb1 caps σ) →
  ∀ σ, trace_each p cb1 ms σ ≠ OutOfFuel →
       trace_each p cb2 ms σ = trace_each p cb1 ms σ.
Proof.
  intros Hcb. induction ms as [|[t caps] ms IH]; intros σ H; [done|].
  cbn [trace_each] in *.
  destruct (cb1 caps σ) as [[r σ1]| |] eqn:E1; [| |done].
  - rewrite Hcb, E1 by (by rewrite E1).
    destruct (trace_each p cb1 ms σ1) as [[o σ2]| |] eqn:E2; [| |done].
    + by rewrite IH, E2 by (by rewrite E2).
    + by rewrite IH, E2 by (by rewrite E2).
  - by rewrite Hcb, E1 by (by rewrite E1).
Qed.

Lemma inlineCSS_traced_more fuel :
  ∀ fuel' p σ, (fuel ≤ fuel')%nat →
    inlineCSS_traced fuel d p σ ≠ OutOfFuel →
    inlineCSS_traced fuel' d p σ = inlineCSS_traced fuel d p σ.
Proof.
  induction fuel as [|fuel IH]; intros fuel' p σ Hle H; [done|].
  destruct fuel' as [|fuel']; [lia|].
  cbn [inlineCSS_traced] in *.
  destruct (bool_decide (p ∈ seen σ)); [done|].
  destruct (Fs.readFileSync d p) as [content|]; [|done].
  destruct (scan_g m_import content) as [ms rest].
  rewrite (trace_each_more (trace_import (inlineCSS_traced fuel d) d p)).
  - done.
  - intros caps σ'. unfold trace_import.
    destruct (negb _); [done|]. intros Hne. apply IH; [lia|done].
  - by destruct (trace_each p _ ms _) as [[out σ2]| |].
Qed.

End Inline.

(* ================================================================== *)
(** ** Link validation *)

(** Once the loop meets an external link it is over for the file: the
    links behind it are not checked. *)
Lemma check_links_external d publicDir file link rest v :
  startsWith (lit "http") link || startsWith (lit "//") link = true →
  check_links d publicDir file (link :: rest) v = v.
Proof. intros H. cbn [check_links]. by rewrite H. Qed.

(** A link with nothing external in front of it is checked. *)
Lemma check_links_missing d publicDir file link rest v :
  startsWith (lit "http") link || startsWith (lit "//") link = false →
  let targetPath := split_head cHASH (split_head cQUERY link) in
  let targetPath := if endsWith [cSLASH] targetPath
                    then targetPath ++ lit "index.html" else targetPath in
  Fs.existsSync d (Path.join publicDir targetPath) = false →
  check_links d publicDir file (link :: rest) v
  = check_links d publicDir file rest
      {| errorsFound := true;
         warnings := warnings v ++ [WarnBrokenLink file link] |}.
Proof.
  intros H tp tp' E. subst tp tp'.
  cbn [check_links]. rewrite H. cbv zeta. by rewrite E.
Qed.

(** C1 on a page that links to another site and then to a page that does
    not exist: the broken link is not reported, and the validator says
    that all links are valid.  With the two links the other way round
    the broken link is reported. *)
Theorem validateLinks_stops_at_external_link :
  validateLinks
    (output_with_page
       (lit "<a href='https://example.com'>a</a><a href='/missing.html'>b</a>"))
    (lit "/site/public")
  = Done [LogLinksValid]
  ∧
  validateLinks
    (output_with_page
       (lit "<a href='/missing.html'>b</a><a href='https://example.com'>a</a>"))
    (lit "/site/public")
  = Done [WarnBrokenLink (lit "index.html") (lit "/missing.html")].
Proof. split; vm_compute; reflexivity. Qed.

(* ================================================================== *)
(** ** Content injection: lists *)

Section ListInjection.

Implicit Types (s t v pre rest : str) (k : slot) (vals : entries).

Lemma blind_nil M : blind M [].
Proof. intros x y rest H Hy. by destruct x, y. Qed.

Lemma blind_app M a b : blind M a → blind M b → blind M (a ++ b).
Proof.
  intros Ha Hb x y rest E Hy.
  destruct (decide (length x < length a)%nat) as [Hl|Hl].
  - assert (Ex : x = take (length x) a).
    { apply (f_equal (take (length x))) in E.
      rewrite take_app_le, take_app_length in E by lia. done. }
    assert (Ey : y = drop (length x) a ++ b).
    { apply (f_equal (drop (length x))) in E.
      rewrite drop_app_le, drop_app_length in E by lia. done. }
    rewrite Ey, <- app_assoc.
    apply (Ha (take (length x) a)); [by rewrite take_drop|].
    intros Hn. apply (f_equal length) in Hn. rewrite length_drop in Hn.
    simpl in Hn. lia.
  - assert (Ey : y = drop (length x - length a) b).
    { apply (f_equal (drop (length x))) in E.
      rewrite drop_app_ge, drop_app_length in E by lia. done. }
    apply (Hb (take (length x - length a) b)); [|done].
    by rewrite Ey, take_drop.
Qed.

Lemma no_brace_spec s : no_brace s = true ↔ cLBRACE ∉ s.
Proof.
  unfold no_brace. induction s as [|c s IH]; simpl.
  - split; [|done]. intros _ H. by apply elem_of_nil in H.
  - rewrite andb_true_iff, IH, negb_true_iff, N.eqb_neq, not_elem_of_cons.
    split; intros [? ?]; split; congruence.
Qed.

Lemma no_brace_app a b :
  no_brace (a ++ b) = true ↔ no_brace a = true ∧ no_brace b = true.
Proof. unfold no_brace. by rewrite forallb_app, andb_true_iff. Qed.

Lemma blind_no_brace k s : no_brace s = true → blind (marker_of k) s.
Proof.
  intros H x y rest -> Hy. apply no_brace_app in H as [_ H].
  destruct y as [|c y]; [done|].
  simpl in H. apply andb_true_iff in H as [Hc _].
  apply negb_true_iff, N.eqb_neq in Hc.
  destruct k; apply startsWith_false_head; by intros <-.
Qed.

(** No marker starts inside another one. *)
Lemma blind_marker k k' : k ≠ k' → blind (marker_of k) (marker_of k').
Proof.
  intros Hk x y rest E Hy.
  assert (Hx : (length x < length (marker_of k'))%nat).
  { rewrite E, length_app. destruct y; [done|]. simpl. lia. }
  assert (Ey : y = drop (length x) (marker_of k')).
  { by rewrite E, drop_app_length. }
  rewrite Ey. clear E Ey Hy. generalize dependent (length x). clear x.
  intros n Hn.
  destruct k, k'; try done;
    do 15 (destruct n as [|n];
           [first [by vm_compute | exfalso; vm_compute in Hn; lia]|]);
    exfalso; vm_compute in Hn; lia.
Qed.

Lemma replace_at M v pre rest :
  blind M pre → plain v = true →
  replace M v (pre ++ M ++ rest) = pre ++ v ++ rest.
Proof.
  intros Hb Hv. unfold replace.
  rewrite indexOf_first by (intros x y E Hy; by eapply Hb).
  rewrite GetSubstitution_plain by done.
  rewrite take_app_length. f_equal. f_equal.
  rewrite drop_app_ge by lia.
  replace (length pre + length M - length pre)%nat with (length M) by lia.
  by rewrite drop_app_length.
Qed.

Lemma indexOf_blind M s :
  M ≠ [] → blind M s → indexOf M s = None.
Proof.
  intros HM. induction s as [|c s IH]; intros Hb.
  - by destruct M.
  - cbn [indexOf].
    pose proof (Hb [] (c :: s) [] eq_refl) as H0. rewrite app_nil_r in H0.
    rewrite H0 by done. rewrite IH; [done|].
    intros x y rest -> Hy. by apply (Hb (c :: x) y rest).
Qed.

Lemma replace_blind M v s : M ≠ [] → blind M s → replace M v s = s.
Proof. intros HM Hb. unfold replace. by rewrite indexOf_blind. Qed.

Lemma marker_nonempty k : marker_of k ≠ [].
Proof. by destruct k. Qed.

Lemma fill_ext pieces rest :
  ∀ vals vals', (∀ k, vals k = vals' k) →
                fill pieces vals rest = fill pieces vals' rest.
Proof.
  induction pieces as [|[t k] ps IH]; intros vals vals' H; [done|].
  cbn [fill]. rewrite <- (H k). destruct (vals k).
  - f_equal. f_equal. by apply IH.
  - f_equal. f_equal. apply IH. intros k'. unfold rest_of.
    by rewrite H.
Qed.

Lemma good_rest_of k vals : good_entries vals → good_entries (rest_of k vals).
Proof.
  intros H k'. unfold rest_of. destruct (decide (k = k')); [|done].
  specialize (H k'). destruct (vals k'); [done|]. by inversion H.
Qed.

Lemma good_add_entry k v vals :
  no_brace v = true → good_entries vals → good_entries (add_entry k v vals).
Proof.
  intros Hv H k'. unfold add_entry. destruct (decide (k = k')); [|done].
  apply Forall_app. split; [done|]. by constructor.
Qed.

(** One [replace] of the marker of kind [k] by [v] gives the first marker
    of that kind without an entry its entry. *)
Lemma fill_step k v pieces rest :
  Forall (λ p, no_brace p.1 = true) pieces →
  no_brace rest = true → simple_entry v = true →
  ∀ vals pre,
    good_entries vals → blind (marker_of k) pre →
    replace (marker_of k) v (pre ++ fill pieces vals rest)
    = pre ++ fill pieces (add_entry k v vals) rest.
Proof.
  intros Hp Hrest [Hvb Hvp]%andb_true_iff.
  induction Hp as [|[t k'] ps Ht Hp IH]; intros vals pre Hvals Hpre.
  - cbn [fill]. apply replace_blind; [apply marker_nonempty|].
    apply blind_app; [done|]. by apply blind_no_brace.
  - cbn [fill]. simpl in Ht.
    destruct (vals k') as [|v' vs] eqn:Ev.
    + destruct (decide (k = k')) as [<-|Hk].
      * unfold add_entry at 1. rewrite decide_True, Ev by done. cbn [app].
        rewrite (app_assoc pre t). rewrite replace_at; [|
          apply blind_app; [done|by apply blind_no_brace] | done].
        rewrite <- app_assoc. f_equal. f_equal. f_equal.
        apply fill_ext. intros k'. unfold rest_of, add_entry.
        destruct (decide (k = k')) as [<-|?]; [by rewrite Ev|done].
      * unfold add_entry at 1. rewrite decide_False, Ev by done.
        rewrite (app_assoc t), (app_assoc pre).
        rewrite IH; [by rewrite <- !app_assoc|done|].
        apply blind_app; [done|].
        apply blind_app; [by apply blind_no_brace|by apply blind_marker].
    + assert (Hv' : no_brace v' = true).
      { specialize (Hvals k'). rewrite Ev in Hvals. by inversion Hvals. }
      assert (Ea : ∃ vs', add_entry k v vals k' = v' :: vs').
      { unfold add_entry. destruct (decide (k = k')); rewrite Ev; eauto. }
      destruct Ea as [vs' Ea]. rewrite Ea.
      rewrite (app_assoc t), (app_assoc pre).
      rewrite IH; [|by apply good_rest_of|].
      * rewrite <- !app_assoc. f_equal. f_equal. f_equal.
        apply fill_ext. intros k''. unfold rest_of, add_entry.
        destruct (decide (k' = k'')) as [->|?];
          destruct (decide (k = k'')) as [->|?]; try done.
        by rewrite Ev.
      * apply blind_app; [done|].
        apply blind_app; by apply blind_no_brace.
Qed.

Lemma inject_amounts_fill pieces rest :
  Forall (λ p, no_brace p.1 = true) pieces → no_brace rest = true →
  ∀ amounts vals,
    Forall (λ v, simple_entry v = true) amounts → good_entries vals →
    inject_amounts amounts (fill pieces vals rest)
    = fill pieces (λ k, vals k ++ amount_entries amounts k) rest.
Proof.
  intros Hp Hr amounts. induction amounts as [|a amounts IH];
    intros vals Ha Hvals.
  - simpl. apply fill_ext. intros k. destruct k; simpl; by rewrite app_nil_r.
  - inversion Ha as [|? ? Ha1 Ha2]; subst. cbn [inject_amounts fold_left].
    pose proof (fill_step SAmount a pieces rest Hp Hr Ha1 vals []
                  Hvals (blind_nil _)) as Hs. cbn [app] in Hs.
    change (replace mAMOUNT a ?x) with (replace (marker_of SAmount) a x).
    rewrite Hs. fold (inject_amounts amounts).
    rewrite IH; [|done|].
    + apply fill_ext. intros k. unfold add_entry.
      destruct k; simpl; try done. by rewrite <- app_assoc.
    + apply good_add_entry; [|done].
      by apply andb_true_iff in Ha1 as [? _].
Qed.

Lemma inject_nav_fill pieces rest :
  Forall (λ p, no_brace p.1 = true) pieces → no_brace rest = true →
  ∀ nav vals,
    Forall (λ i, simple_item i = true) nav → good_entries vals →
    inject_nav nav (fill pieces vals rest)
    = fill pieces (λ k, vals k ++ nav_entries nav k) rest.
Proof.
  intros Hp Hr nav. induction nav as [|i nav IH]; intros vals Hn Hvals.
  - simpl. apply fill_ext. intros k. destruct k; simpl; by rewrite app_nil_r.
  - inversion Hn as [|? ? Hn1 Hn2]; subst. cbn [inject_nav fold_left].
    apply andb_true_iff in Hn1 as [Hl Hd].
    pose proof (fill_step SLabel (label i) pieces rest Hp Hr Hl vals []
                  Hvals (blind_nil _)) as Hs1. cbn [app] in Hs1.
    change (replace mLABEL (label i) ?x)
      with (replace (marker_of SLabel) (label i) x).
    rewrite Hs1.
    assert (Hg1 : good_entries (add_entry SLabel (label i) vals)).
    { apply good_add_entry; [|done]. by apply andb_true_iff in Hl as [? _]. }
    pose proof (fill_step SDestination (link i) pieces rest Hp Hr Hd _ []
                  Hg1 (blind_nil _)) as Hs2. cbn [app] in Hs2.
    change (replace mDESTINATION (link i) ?x)
      with (replace (marker_of SDestination) (link i) x).
    rewrite Hs2. fold (inject_nav nav).
    rewrite IH; [|done|].
    + apply fill_ext. intros k. unfold add_entry.
      destruct k; simpl; try done; by rewrite <- app_assoc.
    + apply good_add_entry; [|done].
      by apply andb_true_iff in Hd as [? _].
Qed.

(** With an entry for every marker no opening brace is left. *)
Lemma fill_no_brace pieces rest :
  Forall (λ p, no_brace p.1 = true) pieces → no_brace rest = true →
  ∀ vals, good_entries vals →
    (∀ k, markers_of k pieces ≤ length (vals k))%nat →
    no_brace (fill pieces vals rest) = true.
Proof.
  intros Hp Hr. induction Hp as [|[t k] ps Ht Hp IH]; intros vals Hv Hn.
  - done.
  - cbn [fill]. simpl in Ht.
    pose proof (Hn k) as Hk. unfold markers_of in Hk. cbn [List.filter] in Hk.
    simpl in Hk. rewrite bool_decide_eq_true_2 in Hk by done. simpl in Hk.
    destruct (vals k) as [|v vs] eqn:Ev; [simpl in Hk; lia|].
    pose proof (Hv k) as Hvk. rewrite Ev in Hvk. inversion Hvk; subst.
    rewrite !no_brace_app. split; [done|]. split; [done|].
    apply IH; [by apply good_rest_of|].
    intros k'. unfold rest_of. specialize (Hn k').
    unfold markers_of in *. cbn [List.filter] in Hn. simpl in Hn.
    destruct (decide (k = k')) as [<-|Hne].
    + rewrite bool_decide_eq_true_2 in Hn by done. rewrite Ev in *.
      simpl in *. lia.
    + rewrite bool_decide_eq_false_2 in Hn by done. done.
Qed.

Lemma no_brace_no_marker k s :
  no_brace s = true → includes (marker_of k) s = false.
Proof.
  intros H. unfold includes.
  rewrite indexOf_blind; [done|apply marker_nonempty|by apply blind_no_brace].
Qed.

Lemma good_nav_entries nav :
  Forall (λ i, simple_entry (label i) && simple_entry (link i) = true) nav →
  good_entries (nav_entries nav).
Proof.
  intros H k. destruct k; simpl; [| |constructor];
    apply List.Forall_map; (eapply Forall_impl; [exact H|]);
    intros i [[? _]%andb_true_iff [? _]%andb_true_iff]%andb_true_iff; done.
Qed.

Lemma good_amount_entries amounts :
  Forall (λ v, simple_entry v = true) amounts →
  good_entries (amount_entries amounts).
Proof.
  intros H k. destruct k; simpl; try constructor.
  eapply Forall_impl; [exact H|]. by intros v [? _]%andb_true_iff.
Qed.

End ListInjection.

(** C2, as the code has it.  Take a fragment whose texts around the
    markers hold no opening brace, and entries that hold none either and
    are plain templates.  Then the loop over the nav entries, and the
    loop over the invoice amounts, put the entries at the markers in list
    order, one entry at each marker: entries beyond the markers are left
    out and markers beyond the entries stay ([fill]).  With an entry for
    every marker no marker is left in the result. *)
Theorem list_injection_fills_markers_in_order
    (pieces : list (str * slot)) (rest : str) :
  Forall (λ p, no_brace p.1 = true) pieces →
  no_brace rest = true →
  (∀ nav : list navItem,
     Forall (λ i, simple_entry (label i) && simple_entry (link i) = true) nav →
     inject_nav nav (with_markers pieces rest)
     = fill pieces (nav_entries nav) rest
     ∧ ((∀ k, markers_of k pieces ≤ length (nav_entries nav k))%nat →
        ∀ k, includes (marker_of k)
               (inject_nav nav (with_markers pieces rest)) = false))
  ∧
  (∀ amounts : list str,
     Forall (λ v, simple_entry v = true) amounts →
     inject_amounts amounts (with_markers pieces rest)
     = fill pieces (amount_entries amounts) rest
     ∧ ((∀ k, markers_of k pieces ≤ length (amount_entries amounts k))%nat →
        ∀ k, includes (marker_of k)
               (inject_amounts amounts (with_markers pieces rest)) = false)).
Proof.
  intros Hp Hr.
  assert (Hg0 : good_entries no_entries) by (intros k; constructor).
  split.
  - intros nav Hnav.
    assert (E : inject_nav nav (with_markers pieces rest)
                = fill pieces (nav_entries nav) rest).
    { unfold with_markers. by rewrite inject_nav_fill. }
    split; [done|]. intros Hn k. rewrite E. apply no_brace_no_marker.
    apply fill_no_brace; try done. by apply good_nav_entries.
  - intros amounts Ham.
    assert (E : inject_amounts amounts (with_markers pieces rest)
                = fill pieces (amount_entries amounts) rest).
    { unfold with_markers. by rewrite inject_amounts_fill. }
    split; [done|]. intros Hn k. rewrite E. apply no_brace_no_marker.
    apply fill_no_brace; try done. by apply good_amount_entries.
Qed.

Lemma list_injection_fills_markers_in_order_witness :
  inject_nav (header_nav sample_copy) (P.headerHTML sample_partials)
  = lit "<nav><a href='/'>Home</a><a href='/#about'>About</a><a href='/#contact'>Contact</a></nav>"
  ∧ includes mLABEL
      (inject_nav (header_nav sample_copy) (P.headerHTML sample_partials))
    = false
  ∧ includes mDESTINATION
      (inject_nav (header_nav sample_copy) (P.headerHTML sample_partials))
    = false
  ∧ inject_amounts [lit "$1,200"; lit "$850"]
      (with_markers sample_amount_pieces (lit "</li>"))
    = lit "<li>Invoice $1,200</li><li>Invoice $850</li><li>Invoice {{AMOUNT}}</li>".
Proof.
  assert (Hp : Forall (λ p : str * slot, no_brace p.1 = true) sample_nav_pieces)
    by (repeat constructor).
  assert (Hq : Forall (λ p : str * slot, no_brace p.1 = true)
                 sample_amount_pieces) by (repeat constructor).
  destruct (list_injection_fills_markers_in_order sample_nav_pieces
              (lit "</a></nav>") Hp eq_refl) as [Hnav _].
  destruct (list_injection_fills_markers_in_order sample_amount_pieces
              (lit "</li>") Hq eq_refl) as [_ Ham].
  destruct (Hnav (header_nav sample_copy)) as [E Hno];
    [repeat constructor|].
  destruct (Ham [lit "$1,200"; lit "$850"]) as [E' _];
    [repeat constructor|].
  assert (Hn : ∀ k, (markers_of k sample_nav_pieces
                     <= length (nav_entries (header_nav sample_copy) k))%nat).
  { intros k. destruct k; vm_compute; lia. }
  split; [exact E|]. split; [exact (Hno Hn SLabel)|].
  split; [exact (Hno Hn SDestination)|]. exact E'.
Defined.

(** C2 fails as it is stated: two amounts for two markers, and the second
    amount lands in the text of the first, which brought a marker with
    it; a marker is left. *)
Lemma amounts_equal_in_number_leave_a_marker :
  markers_of SAmount [([], SAmount); (lit "-", SAmount)] = 2%nat
  ∧ inject_amounts [lit "a{{AMOUNT}}"; lit "b"]
      (with_markers [([], SAmount); (lit "-", SAmount)] [])
    = lit "ab-{{AMOUNT}}"
  ∧ includes mAMOUNT
      (inject_amounts [lit "a{{AMOUNT}}"; lit "b"]
         (with_markers [([], SAmount); (lit "-", SAmount)] []))
    = true.
Proof. repeat split; vm_compute; reflexivity. Qed.

(* ================================================================== *)
(** ** Inlining of imports: every file at most once *)

Section Once.

Variable d : Fs.disk.

Implicit Types (p q : str) (σ : bundler) (fuel : nat)
  (chunks : list chunk) (ms : list (str * list str)).

Lemma owned_app q a b : owned q (a ++ b) = owned q a ++ owned q b.
Proof. unfold owned. by rewrite List.filter_app, List.map_app. Qed.

Lemma owned_cons_eq q t a : owned q ((q, t) :: a) = t :: owned q a.
Proof. unfold owned. simpl. by rewrite bool_decide_eq_true_2. Qed.

Lemma owned_cons_ne q p t a : p ≠ q → owned q ((p, t) :: a) = owned q a.
Proof. intros H. unfold owned. simpl. by rewrite bool_decide_eq_false_2. Qed.

Lemma trace_each_once
    (cb : list str → bundler → outcome (list chunk * bundler)) p ms :
  (∀ caps σ r σ', cb caps σ = Done (r, σ') → seen σ `prefix_of` seen σ') →
  (∀ caps σ r σ', cb caps σ = Done (r, σ') → ∀ q, once d q σ σ' r) →
  ∀ σ out σ',
    trace_each p cb ms σ = Done (out, σ') → p ∈ seen σ →
    owned p out = List.map fst ms ∧ ∀ q, q ≠ p → once d q σ σ' out.
Proof.
  intros Hpre Hcb. induction ms as [|[t caps] ms IH]; intros σ out σ'.
  - intros [= <- <-] Hp. split; [done|]. intros q _. by repeat split.
  - cbn [trace_each]. destruct (cb caps σ) as [[r σ1]| |] eqn:E1; [|done..].
    destruct (trace_each p cb ms σ1) as [[o σ2]| |] eqn:E2; [|done..].
    intros [= <- <-] Hp.
    pose proof (Hpre _ _ _ _ E1) as P1.
    pose proof (trace_each_seen cb p ms Hpre _ _ _ E2) as P2.
    assert (Hp1 : p ∈ seen σ1) by (by eapply elem_of_prefix).
    destruct (IH _ _ _ E2 Hp1) as [Ip Iq].
    destruct (Hcb _ _ _ _ E1 p) as (Cp & _ & _).
    split.
    + rewrite owned_cons_eq, owned_app, Cp, Ip by done. done.
    + intros q Hq. destruct (Hcb _ _ _ _ E1 q) as (C1 & C2 & C3).
      destruct (Iq q Hq) as (I1 & I2 & I3). unfold once.
      rewrite owned_cons_ne, owned_app by done.
      split; [|split].
      * intros H. rewrite C1, I1; [done| |done]. by eapply elem_of_prefix.
      * intros H. rewrite C2, I2; [done|done|].
        intros H1. apply H. by eapply elem_of_prefix.
      * intros Hn Hy. destruct (decide (q ∈ seen σ1)) as [H1|H1].
        -- rewrite C3, I1 by done. by rewrite app_nil_r.
        -- rewrite C2, I3 by done. done.
Qed.

Lemma trace_import_once
    (trecur : str → bundler → outcome (list chunk * bundler)) p :
  (∀ q σ r σ', trecur q σ = Done (r, σ') → ∀ q', once d q' σ σ' r) →
  ∀ caps σ r σ', trace_import trecur d p caps σ = Done (r, σ') →
                 ∀ q, once d q σ σ' r.
Proof.
  intros Hr caps σ r σ'. unfold trace_import. destruct (negb _).
  - intros [= <- <-] q. by repeat split.
  - apply Hr.
Qed.

Lemma seen_add_new p σ : p ∉ seen σ → seen (seen_add p σ) = seen σ ++ [p].
Proof. intros H. unfold seen_add. simpl. by rewrite bool_decide_eq_false_2. Qed.

Lemma file_texts_read p content ms rest :
  Fs.readFileSync d p = Some content →
  scan_g m_import content = (ms, rest) →
  file_texts d p = List.map fst ms ++ [rest].
Proof. intros E1 E2. unfold file_texts. by rewrite E1, E2. Qed.

Lemma inlineCSS_traced_once fuel :
  ∀ p σ chunks σ', inlineCSS_traced fuel d p σ = Done (chunks, σ') →
                   ∀ q, once d q σ σ' chunks.
Proof.
  induction fuel as [|fuel IH]; intros p σ chunks σ'; [done|].
  cbn [inlineCSS_traced].
  destruct (bool_decide (p ∈ seen σ)) eqn:Ep.
  { intros [= <- <-] q. by repeat split. }
  apply bool_decide_eq_false in Ep.
  destruct (Fs.readFileSync d p) as [content|] eqn:Er; [|done].
  destruct (scan_g m_import content) as [ms rest] eqn:Es.
  destruct (trace_each p _ ms _) as [[out σ2]| |] eqn:E; [|done..].
  intros [= <- <-] q.
  pose proof (seen_add_new p σ Ep) as Ea.
  assert (Hp : p ∈ seen (seen_add p σ)) by (rewrite Ea; set_solver).
  pose proof (trace_each_seen _ p ms
                (trace_import_seen d _ p (inlineCSS_traced_seen d fuel))
                _ _ _ E) as P2.
  destruct (trace_each_once _ p ms
              (trace_import_seen d _ p (inlineCSS_traced_seen d fuel))
              (trace_import_once _ p IH) _ _ _ E Hp) as [Ip Iq].
  unfold once. rewrite owned_app.
  destruct (decide (q = p)) as [->|Hq].
  - rewrite Ip, owned_cons_eq. split; [done|]. split.
    + intros H. exfalso. apply H. by eapply elem_of_prefix.
    + intros _ _. by rewrite (file_texts_read _ _ _ _ Er Es).
  - destruct (Iq q Hq) as (I1 & I2 & I3).
    rewrite owned_cons_ne by done. change (owned q []) with (@nil str).
    rewrite !app_nil_r. split; [|split].
    + intros H. apply I1. rewrite Ea. set_solver.
    + done.
    + intros Hn Hy. apply I3; [|done]. rewrite Ea. set_solver.
Qed.

End Once.

(** C4.  On every disk, with import cycles or without, [inlineCSS] comes
    to an end: with the fuel of the model it returns or throws, and more
    fuel changes nothing.  The import of a file that is in the seen set
    gives the empty text and leaves the set as it is.  In the bundle the
    texts of a file stand once, in their order, if the file is seen in
    the run, and not at all otherwise. *)
Theorem inlineCSS_ends_and_inlines_once (d : Fs.disk) (filePath : str)
    (σ : bundler) :
  inlineCSS (inline_fuel d) d filePath σ ≠ OutOfFuel ∧
  (∀ fuel, (inline_fuel d ≤ fuel)%nat →
     inlineCSS fuel d filePath σ = inlineCSS (inline_fuel d) d filePath σ) ∧
  (filePath ∈ seen σ →
     inlineCSS (inline_fuel d) d filePath σ = Done ([], σ)) ∧
  (∀ out σ',
     inlineCSS (inline_fuel d) d filePath σ = Done (out, σ') →
     ∃ chunks,
       inlineCSS_traced (inline_fuel d) d filePath σ = Done (chunks, σ') ∧
       out = text_of chunks ∧
       ∀ p, (p ∈ seen σ ∨ p ∉ seen σ' → owned p chunks = []) ∧
            (p ∉ seen σ → p ∈ seen σ' → owned p chunks = file_texts d p)).
Proof.
  pose proof (inlineCSS_traced_ends d (inline_fuel d) filePath σ
                (unseen_bound d σ)) as Hends.
  split; [|split; [|split]].
  - rewrite inlineCSS_erase.
    by destruct (inlineCSS_traced _ d filePath σ) as [[c s]| |].
  - intros fuel Hle. rewrite !inlineCSS_erase.
    by rewrite (inlineCSS_traced_more d (inline_fuel d) fuel).
  - intros H. unfold inline_fuel. cbn [inlineCSS].
    by rewrite bool_decide_eq_true_2.
  - intros out σ'. rewrite inlineCSS_erase.
    destruct (inlineCSS_traced _ d filePath σ) as [[chunks s]| |] eqn:E;
      [|done..].
    intros [= <- <-]. exists chunks. split; [done|]. split; [done|].
    intros p. destruct (inlineCSS_traced_once d _ _ _ _ _ E p) as (H1 & H2 & H3).
    split; [|done]. intros [H|H]; auto.
Qed.

Lemma inlineCSS_ends_and_inlines_once_witness :
  let d := css_site [(lit "a.css", lit "A0@import 'b.css';A1");
                     (lit "b.css", lit "B0@import './a.css';B1")] in
  let a := lit "/site/src/assets/css/a.css" in
  let b := lit "/site/src/assets/css/b.css" in
  inlineCSS (inline_fuel d) d a new_bundler
  = Done (lit "A0B0B1A1", {| seen := [a; b]; console := [] |}) ∧
  inlineCSS (S (inline_fuel d)) d a new_bundler
  = inlineCSS (inline_fuel d) d a new_bundler ∧
  inlineCSS (inline_fuel d) d a {| seen := [b; a]; console := [] |}
  = Done ([], {| seen := [b; a]; console := [] |}) ∧
  ∃ chunks,
    inlineCSS_traced (inline_fuel d) d a new_bundler
    = Done (chunks, {| seen := [a; b]; console := [] |}) ∧
    owned b chunks = [lit "B0"; lit "B1"].
Proof.
  intros d a b.
  destruct (inlineCSS_ends_and_inlines_once d a new_bundler)
    as (_ & Hfuel & _ & Hdone).
  destruct (inlineCSS_ends_and_inlines_once d a
              {| seen := [b; a]; console := [] |}) as (_ & _ & Hseen & _).
  assert (E : inlineCSS (inline_fuel d) d a new_bundler
              = Done (lit "A0B0B1A1", {| seen := [a; b]; console := [] |}))
    by (vm_compute; reflexivity).
  split; [exact E|]. split; [apply Hfuel; apply Nat.le_succ_diag_r|].
  split; [apply Hseen; apply list_elem_of_further, list_elem_of_here|].
  destruct (Hdone _ _ E) as (chunks & Et & _ & Hown).
  exists chunks. split; [exact Et|].
  destruct (Hown b) as [_ H]. rewrite H; [vm_compute; reflexivity| |].
  - apply not_elem_of_nil.
  - apply list_elem_of_further, list_elem_of_here.
Defined.

(* ================================================================== *)
(** ** Inlining of imports: depth first, every file once *)

Section DepthFirst.

Variable d : Fs.disk.

Implicit Types (p q : str) (σ : bundler) (fuel : nat)
  (chunks : list chunk) (ms : list (str * list str)).


(** *** The seen set has every member once *)




(** *** Closed under imports *)





(** *** The order of the seen set is the depth-first order *)


(** *** The files in the order of their first texts *)




















(** *** A disk of files only: the run returns *)



End DepthFirst.




(* ================================================================== *)
(** ** Inlining of imports: a file that is missing *)


Section Missing.

Variable d : Fs.disk.
Variable m : str.
Hypothesis Hm : d !! m = None.

Let d' : Fs.disk := <[m := Fs.File []]> d.

Implicit Types (p q : str) (σ : bundler) (fuel : nat)
  (ms : list (str * list str)).









End Missing.



(* ================================================================== *)
(** ** CSS minification, pass by pass *)

Section MinifyCSS.

Implicit Types (s t out passed : str) (c d : N).

Lemma m_spaces_Some least passed s n caps :
  m_spaces least passed s = Some (n, caps) →
  n = length (span is_space s).1 ∧ (least ≤ n)%nat ∧ caps = [].
Proof.
  unfold m_spaces. destruct (_ <=? _)%nat eqn:E; [|done].
  intros [= <- <-]. apply Nat.leb_le in E. done.
Qed.

Lemma m_spaces_None passed c s :
  m_spaces 1 passed (c :: s) = None → is_space c = false.
Proof.
  unfold m_spaces. destruct (is_space c) eqn:Ec; [|done].
  rewrite span_yes by done. done.
Qed.

Lemma span_length_le p s : (length (span p s).1 ≤ length s)%nat.
Proof. rewrite (span_eq p s) at 2. rewrite length_app. lia. Qed.

Lemma m_spaces_length least passed s n caps :
  m_spaces least passed s = Some (n, caps) → (n ≤ length s)%nat.
Proof. intros (-> & _ & _)%m_spaces_Some. apply span_length_le. Qed.

Lemma m_spaces_pos least passed s caps :
  (0 < least)%nat → m_spaces least passed s ≠ Some (0%nat, caps).
Proof. intros Hl (? & ? & _)%m_spaces_Some. lia. Qed.

Lemma symbol_not_space c : is_css_symbol c = true → is_space c = false.
Proof.
  unfold is_css_symbol. rewrite !orb_true_iff, !N.eqb_eq.
  intros [[[[->| ->]| ->]| ->]| ->]; reflexivity.
Qed.

Lemma space_not_symbol c : is_space c = true → is_css_symbol c = false.
Proof.
  intros H. destruct (is_css_symbol c) eqn:E; [|done].
  apply symbol_not_space in E. congruence.
Qed.

Lemma m_css_symbol_Some passed s n caps :
  m_css_symbol passed s = Some (n, caps) →
  ∃ d r, (span is_space s).2 = d :: r ∧ is_css_symbol d = true ∧
         n = (length (span is_space s).1 + 1
              + length (span is_space r).1)%nat ∧
         caps = [[d]].
Proof.
  unfold m_css_symbol. destruct (span is_space s) as [front r]. simpl.
  destruct r as [|d r]; [done|]. destruct (is_css_symbol d) eqn:E; [|done].
  intros [= <- <-]. by exists d, r.
Qed.

Lemma m_css_symbol_length passed s n caps :
  m_css_symbol passed s = Some (n, caps) → (n ≤ length s)%nat.
Proof.
  intros (d & r & E & _ & -> & _)%m_css_symbol_Some.
  pose proof (f_equal length (span_eq is_space s)) as Hl.
  rewrite E, length_app in Hl. simpl in Hl.
  pose proof (span_length_le is_space r). lia.
Qed.

Lemma m_css_symbol_drop passed s n caps d r :
  m_css_symbol passed s = Some (n, caps) →
  (span is_space s).2 = d :: r →
  drop n s = (span is_space r).2.
Proof.
  intros (d' & r' & E & _ & -> & _)%m_css_symbol_Some E'.
  rewrite E in E'. injection E' as -> ->.
  rewrite <- !drop_drop, span_drop, E. simpl. apply span_drop.
Qed.

Lemma m_literal_Some p passed s n caps :
  m_literal p passed s = Some (n, caps) →
  startsWith p s = true ∧ n = length p ∧ caps = [].
Proof.
  unfold m_literal. destruct (startsWith p s); [|done]. by intros [= <- <-].
Qed.

Lemma m_literal_length p passed s n caps :
  m_literal p passed s = Some (n, caps) → (n ≤ length s)%nat.
Proof.
  intros ([r ->]%startsWith_inv & -> & _)%m_literal_Some.
  rewrite length_app. lia.
Qed.

Lemma dollar_one matched before after d :
  GetSubstitution matched before after [[d]] (lit "$1") = [d].
Proof. reflexivity. Qed.

(** *** What [tidy] and [single_spaced] say *)

Lemma single_spaced_cons c s :
  single_spaced (c :: s) = true ↔
  only_space c = true ∧
  match s with [] => True | d :: _ => apart c d = true end ∧
  single_spaced s = true.
Proof.
  unfold single_spaced. cbn [forallb]. rewrite !andb_true_iff, chain_cons.
  tauto.
Qed.

Lemma tidy_cons c s :
  tidy (c :: s) = true ↔
  only_space c = true ∧
  match s with [] => True | d :: _ => snug c d = true end ∧
  tidy s = true.
Proof.
  unfold tidy. cbn [forallb]. rewrite !andb_true_iff, chain_cons. tauto.
Qed.

Lemma single_spaced_app_r a b :
  single_spaced (a ++ b) = true → single_spaced b = true.
Proof.
  unfold single_spaced. rewrite forallb_app, !andb_true_iff.
  intros [[_ ?] ?%chain_app_r]. done.
Qed.

Lemma single_spaced_drop n s :
  single_spaced s = true → single_spaced (drop n s) = true.
Proof.
  intros H. rewrite <- (take_drop n s) in H.
  by apply single_spaced_app_r in H.
Qed.

Lemma tidy_app_r a b : tidy (a ++ b) = true → tidy b = true.
Proof.
  unfold tidy. rewrite forallb_app, !andb_true_iff.
  intros [[_ ?] ?%chain_app_r]. done.
Qed.

Lemma tidy_app_l a b : tidy (a ++ b) = true → tidy a = true.
Proof.
  unfold tidy. rewrite forallb_app, !andb_true_iff.
  intros [[? _] ?%chain_app_l]. done.
Qed.

Lemma tidy_drop n s : tidy s = true → tidy (drop n s) = true.
Proof.
  intros H. rewrite <- (take_drop n s) in H. by apply tidy_app_r in H.
Qed.

Lemma only_space_space c : is_space c = true → only_space c = true → c = cSP.
Proof.
  unfold only_space. intros ->. simpl. by intros ?%N.eqb_eq.
Qed.

Lemma only_space_other c : is_space c = false → only_space c = true.
Proof. unfold only_space. by intros ->. Qed.

(** *** White space collapsed *)

Lemma collapse_single_spaced s passed :
  single_spaced (collapse_from passed s) = true ∧
  match s with
  | [] => collapse_from passed s = []
  | d :: _ => is_space d = false → head (collapse_from passed s) = Some d
  end.
Proof.
  revert s passed. unfold collapse_from.
  apply (replace_g_cases (m_spaces 1) (lit " ")
           (λ passed s out,
              single_spaced out = true ∧
              match s with
              | [] => out = []
              | d :: _ => is_space d = false → head out = Some d
              end)).
  - intros passed s caps. apply m_spaces_pos. lia.
  - done.
  - intros passed c s out Hm [Hout Hhead].
    apply m_spaces_None in Hm. split; [|done].
    apply single_spaced_cons. split; [by apply only_space_other|].
    split; [|done]. destruct out; [done|]. unfold apart. by rewrite Hm.
  - intros passed s n caps out Hm Hn [Hout Hhead].
    apply m_spaces_Some in Hm as (-> & _ & ->).
    rewrite GetSubstitution_plain by done.
    rewrite span_drop in Hhead.
    pose proof (span_stop is_space s) as Hstop.
    split.
    + change (lit " " ++ out) with (cSP :: out).
      apply single_spaced_cons. split; [done|]. split; [|done].
      destruct ((span is_space s).2) as [|d r]; [by subst out|].
      specialize (Hhead Hstop). destruct out as [|e out]; [done|].
      simpl in Hhead. injection Hhead as ->. unfold apart.
      by rewrite Hstop, andb_false_r.
    + destruct s as [|d s]; [simpl in Hn; lia|]. intros Hd.
      rewrite span_no in Hn by done. simpl in Hn. lia.
  - intros passed s n caps. apply m_spaces_length.
Qed.

(** *** Spaces around the symbols removed *)

Lemma m_css_symbol_front passed c s :
  is_space c = false →
  m_css_symbol passed (c :: s)
  = if is_css_symbol c
    then Some ((1 + length (span is_space s).1)%nat, [[c]]) else None.
Proof. intros H. unfold m_css_symbol. by rewrite span_no. Qed.

Lemma tighten_tidy s passed :
  single_spaced s = true →
  tidy (tighten_from passed s) = true ∧
  match s with
  | [] => tighten_from passed s = []
  | d :: _ => is_space d = false → head (tighten_from passed s) = Some d
  end.
Proof.
  revert s passed. unfold tighten_from.
  apply (replace_g_cases m_css_symbol (lit "$1")
           (λ passed s out,
              single_spaced s = true →
              tidy out = true ∧
              match s with
              | [] => out = []
              | d :: _ => is_space d = false → head out = Some d
              end)).
  - intros passed s caps (d & r & _ & _ & ? & _)%m_css_symbol_Some. lia.
  - done.
  - intros passed c s out Hm IH (Hc & Hnext & Hs)%single_spaced_cons.
    destruct (IH Hs) as [Hout Hhead]. split; [|done].
    apply tidy_cons. split; [done|]. split; [|done].
    destruct (is_space c) eqn:Ec.
    + (* a space that stays: no symbol follows it *)
      destruct s as [|d s]; [by subst out|].
      unfold apart in Hnext. rewrite Ec in Hnext. simpl in Hnext.
      apply negb_true_iff in Hnext.
      unfold m_css_symbol in Hm. rewrite span_yes, span_no in Hm by done.
      simpl in Hm. destruct (is_css_symbol d) eqn:Ed; [done|].
      specialize (Hhead Hnext). destruct out as [|e out]; [done|].
      simpl in Hhead. injection Hhead as ->.
      unfold snug. by rewrite Ec, Hnext, Ed, (space_not_symbol c Ec).
    + rewrite m_css_symbol_front in Hm by done.
      destruct (is_css_symbol c) eqn:Esym; [done|].
      destruct out as [|e out]; [done|]. unfold snug. by rewrite Ec, Esym.
  - intros passed s n caps out Hm Hn IH Hs.
    pose proof Hm as (d & r & Er & Hd & -> & ->)%m_css_symbol_Some.
    rewrite dollar_one.
    rewrite (m_css_symbol_drop _ _ _ _ _ _ Hm Er) in IH.
    assert (Hrest : single_spaced (span is_space r).2 = true).
    { rewrite <- (m_css_symbol_drop _ _ _ _ _ _ Hm Er).
      by apply single_spaced_drop. }
    destruct (IH Hrest) as [Hout Hhead].
    pose proof (span_stop is_space r) as Hstop.
    pose proof (symbol_not_space _ Hd) as Hdn.
    split.
    + change ([d] ++ out) with (d :: out). apply tidy_cons.
      split; [by apply only_space_other|]. split; [|done].
      destruct ((span is_space r).2) as [|e r']; [by subst out|].
      specialize (Hhead Hstop). destruct out as [|e' out]; [done|].
      simpl in Hhead. injection Hhead as ->. unfold snug.
      by rewrite Hdn, Hstop, andb_false_r.
    + destruct s as [|c s]; [simpl in Hn; lia|]. intros Hc.
      rewrite span_no in Er by done. simpl in Er. by injection Er as -> _.
  - intros passed s n caps. apply m_css_symbol_length.
Qed.

(** *** Semicolons in front of closing braces removed *)

Lemma unsemi_tidy s passed :
  tidy s = true →
  tidy (unsemi_from passed s) = true ∧
  match s with
  | [] => unsemi_from passed s = []
  | d :: _ =>
    head (unsemi_from passed s) = Some d ∨
    (d = cSEMI ∧ head (unsemi_from passed s) = Some cRBRACE)
  end.
Proof.
  revert s passed. unfold unsemi_from.
  apply (replace_g_cases (m_literal (lit ";}")) (lit "}")
           (λ passed s out,
              tidy s = true →
              tidy out = true ∧
              match s with
              | [] => out = []
              | d :: _ =>
                head out = Some d ∨ (d = cSEMI ∧ head out = Some cRBRACE)
              end)).
  - by intros passed s caps (_ & ? & _)%m_literal_Some.
  - done.
  - intros passed c s out Hm IH (Hc & Hnext & Hs)%tidy_cons.
    destruct (IH Hs) as [Hout Hhead]. split; [|by left].
    apply tidy_cons. split; [done|]. split; [|done].
    destruct s as [|d s]; [by subst out|].
    destruct out as [|e out]; [done|].
    destruct Hhead as [[= ->]|[-> [= ->]]]; [done|].
    (* the brace of a dropped semicolon: what stood next to the semicolon
       stands next to a brace *)
    unfold snug in *. change (is_space cSEMI) with false in Hnext.
    change (is_css_symbol cSEMI) with true in Hnext.
    change (is_space cRBRACE) with false.
    change (is_css_symbol cRBRACE) with true.
    by rewrite orb_true_r in *.
  - intros passed s n caps out Hm Hn IH Hs.
    apply m_literal_Some in Hm as ([r ->]%startsWith_inv & -> & ->).
    rewrite GetSubstitution_plain by done.
    change (length (lit ";}")) with 2%nat in *.
    change (drop 2 (lit ";}" ++ r)) with r in IH.
    assert (Hr : tidy r = true) by (by apply tidy_app_r in Hs).
    destruct (IH Hr) as [Hout Hhead]. split; [|by right].
    change (lit "}" ++ out) with (cRBRACE :: out).
    apply tidy_cons. split; [done|]. split; [|done].
    destruct r as [|d r]; [by subst out|].
    destruct out as [|e out]; [done|].
    change (lit ";}" ++ d :: r) with (cSEMI :: cRBRACE :: d :: r) in Hs.
    apply tidy_cons in Hs as (_ & _ & (_ & Hd & _)%tidy_cons).
    destruct Hhead as [[= ->]|[-> [= ->]]]; done.
  - intros passed s n caps. apply m_literal_length.
Qed.

(** *** Trimming *)

Lemma tidy_trim s : tidy s = true → tidy (trim s) = true.
Proof.
  intros H. unfold trim.
  destruct (trimStart_split s) as (w & E & _).
  destruct (trimEnd_split (trimStart s)) as (w' & E' & _).
  rewrite E in H. apply tidy_app_r in H. rewrite E' in H.
  by apply tidy_app_l in H.
Qed.

(** *** The passes on tidy text *)

Lemma collapse_tidy_id s passed :
  tidy s = true → collapse_from passed s = s.
Proof.
  revert s passed. unfold collapse_from.
  apply (replace_g_cases (m_spaces 1) (lit " ")
           (λ passed s out, tidy s = true → out = s)).
  - intros passed s caps. apply m_spaces_pos. lia.
  - done.
  - intros passed c s out Hm IH (Hc & Hnext & Hs)%tidy_cons.
    by rewrite IH.
  - intros passed s n caps out Hm Hn IH Hs.
    apply m_spaces_Some in Hm as (-> & _ & ->).
    rewrite GetSubstitution_plain by done.
    destruct s as [|c s]; [simpl in Hn; lia|].
    destruct (is_space c) eqn:Ec.
    2:{ rewrite span_no in Hn by done. simpl in Hn. lia. }
    pose proof Hs as (Hc & Hnext & Hs')%tidy_cons.
    assert (Es : span is_space s = ([], s)).
    { apply span_stopped. destruct s as [|d s]; [done|].
      unfold snug in Hnext. rewrite Ec in Hnext. simpl in Hnext.
      apply andb_true_iff in Hnext as [Hnext _].
      by apply negb_true_iff, orb_false_iff in Hnext as [? _]. }
    rewrite span_yes, Es in IH by done. simpl in IH.
    rewrite (only_space_space c) by done.
    change (lit " " ++ out) with (cSP :: out). f_equal. rewrite drop_0 in IH.
    by apply IH.
  - intros passed s n caps. apply m_spaces_length.
Qed.

Lemma tighten_tidy_id s passed :
  tidy s = true → tighten_from passed s = s.
Proof.
  revert s passed. unfold tighten_from.
  apply (replace_g_cases m_css_symbol (lit "$1")
           (λ passed s out, tidy s = true → out = s)).
  - intros passed s caps (d & r & _ & _ & ? & _)%m_css_symbol_Some. lia.
  - done.
  - intros passed c s out Hm IH (Hc & Hnext & Hs)%tidy_cons.
    by rewrite IH.
  - intros passed s n caps out Hm Hn IH Hs.
    destruct s as [|c s]; [simpl in Hn; lia|].
    pose proof Hs as (Hc & Hnext & Hs')%tidy_cons.
    destruct (is_space c) eqn:Ec.
    + (* no symbol stands behind a space *)
      exfalso. unfold m_css_symbol in Hm.
      destruct s as [|d s].
      { rewrite span_yes in Hm by done. done. }
      unfold snug in Hnext. rewrite Ec in Hnext. simpl in Hnext.
      apply andb_true_iff in Hnext as [Hnext _].
      apply negb_true_iff, orb_false_iff in Hnext as [Hd1 Hd2].
      rewrite span_yes, span_no in Hm by done. simpl in Hm.
      by rewrite Hd2 in Hm.
    + rewrite m_css_symbol_front in Hm by done.
      destruct (is_css_symbol c) eqn:Esym; [|done].
      assert (Es : span is_space s = ([], s)).
      { apply span_stopped. destruct s as [|d s]; [done|].
        unfold snug in Hnext. rewrite Esym in Hnext.
        apply andb_true_iff in Hnext as [_ Hnext].
        by apply negb_true_iff in Hnext. }
      rewrite Es in Hm. simpl in Hm. injection Hm as <- <-.
      rewrite dollar_one. simpl in IH |- *. rewrite drop_0 in IH.
      f_equal. by apply IH.
  - intros passed s n caps. apply m_css_symbol_length.
Qed.

End MinifyCSS.

(** C5, as the code has it.  Each pass of [minifyCSS] goes over the text
    once, so a pass can leave behind what it would remove on a second
    run: a comment put together from the two sides of a removed comment,
    or a semicolon in front of a closing brace where there were two.
    When the minified text holds no comment and no [;}], minifying it
    again gives the same text, and its hash, which names the bundle, is
    the same. *)
Theorem minifyCSS_again (css : str) :
  finds css_comment (minifyCSS css) = false →
  includes (lit ";}") (minifyCSS css) = false →
  minifyCSS (minifyCSS css) = minifyCSS css ∧
  bundle_name (getContentHash (minifyCSS (minifyCSS css)))
  = bundle_name (getContentHash (minifyCSS css)).
Proof.
  intros Hc Hs.
  assert (Ht : tidy (minifyCSS css) = true).
  { unfold minifyCSS, replace_g. apply tidy_trim.
    apply unsemi_tidy. apply tighten_tidy. apply collapse_single_spaced. }
  assert (E : minifyCSS (minifyCSS css) = minifyCSS css); [|by rewrite E].
  set (m := minifyCSS css) in *.
  unfold minifyCSS at 1. unfold replace_g.
  rewrite (replace_g_no_match _ _ m) by exact Hc.
  rewrite (collapse_tidy_id m) by done.
  rewrite (tighten_tidy_id m) by done.
  rewrite (replace_g_no_match (m_literal (lit ";}")) _ m).
  - unfold m, minifyCSS. apply trim_trim.
  - apply includes_false in Hs. clear -Hs. generalize (@nil N).
    induction m as [|c m IH]; intros passed; [done|].
    cbn [finds_from]. unfold m_literal at 1.
    destruct (startsWith (lit ";}") (c :: m)) eqn:E.
    + exfalso. apply Hs. apply startsWith_inv in E as [r ->].
      apply occurs_here.
    + apply IH. intros Ho. apply Hs. by apply occurs_cons.
Qed.

Lemma minifyCSS_again_witness :
  minifyCSS (minifyCSS (lit "a { b : c ; } /* x */ d , e { f : g ; }"))
  = minifyCSS (lit "a { b : c ; } /* x */ d , e { f : g ; }").
Proof.
  apply minifyCSS_again; vm_compute; reflexivity.
Defined.

(** C5 fails as it is stated: of two semicolons in front of a closing
    brace the first run removes one and the second run the other. *)
Lemma minifyCSS_twice_differs :
  minifyCSS (lit "a{b:c;;}") = lit "a{b:c;}" ∧
  minifyCSS (minifyCSS (lit "a{b:c;;}")) = lit "a{b:c}".
Proof. split; vm_compute; reflexivity. Qed.

(* ================================================================== *)
(** ** HTML minification, pass by pass *)

Section MinifyHTML.

Implicit Types (s t out passed : str) (c d : N).

(** *** White space taken out *)

Lemma dropped_spaces_front w s t :
  Forall (λ c, is_space c = true) w →
  dropped_spaces s t → dropped_spaces (w ++ s) t.
Proof. induction 1; [done|]. intros. simpl. constructor; auto. Qed.

Lemma dropped_spaces_refl s : dropped_spaces s s.
Proof. induction s; by constructor. Qed.

Lemma dropped_spaces_back s w :
  Forall (λ c, is_space c = true) w → dropped_spaces (s ++ w) s.
Proof.
  intros Hw. induction s as [|c s IH]; simpl; [|by constructor].
  rewrite <- (app_nil_r w). apply dropped_spaces_front; [done|constructor].
Qed.

Lemma dropped_spaces_head d s t :
  is_space d = false → dropped_spaces (d :: s) t → ∃ t', t = d :: t'.
Proof. intros Hd H. inversion H; subst; [eauto|congruence]. Qed.

Lemma dropped_spaces_no_run s t :
  dropped_spaces s t → no_space_run s = true → no_space_run t = true.
Proof.
  unfold no_space_run. induction 1 as [|c s t H IH|c s t Hc H IH]; intros Hs.
  - done.
  - apply chain_cons in Hs as [Hnext Hs]. apply chain_cons.
    split; [|by apply IH].
    destruct t as [|e t]; [done|]. unfold apart.
    destruct (is_space c) eqn:Ec; [|done].
    destruct s as [|d s]; [by inversion H|].
    unfold apart in Hnext. rewrite Ec in Hnext. simpl in Hnext.
    apply negb_true_iff in Hnext.
    destruct (dropped_spaces_head _ _ _ Hnext H) as [t' [= -> ->]].
    by rewrite Hnext.
  - apply chain_tail in Hs. by apply IH.
Qed.

Lemma dropped_spaces_strip s t :
  dropped_spaces s t → strip_spaces t = strip_spaces s.
Proof.
  unfold strip_spaces. induction 1 as [|c s t H IH|c s t Hc H IH]; simpl.
  - done.
  - by rewrite IH.
  - by rewrite Hc.
Qed.

Lemma trim_dropped s : dropped_spaces s (trim s).
Proof.
  unfold trim.
  destruct (trimStart_split s) as (w & E & Hw).
  destruct (trimEnd_split (trimStart s)) as (w' & E' & Hw').
  rewrite E at 1. apply dropped_spaces_front; [done|].
  rewrite E' at 1. by apply dropped_spaces_back.
Qed.

(** A pass that replaces white space by nothing. *)
Lemma replace_g_dropped m :
  (∀ passed s caps, m passed s ≠ Some (0%nat, caps)) →
  (∀ passed s n caps,
     m passed s = Some (n, caps) →
     (n ≤ length s)%nat ∧ Forall (λ c, is_space c = true) (take n s)) →
  ∀ s passed, dropped_spaces s (replace_g_from m [] 0 passed s).
Proof.
  intros Hz Hm.
  apply (replace_g_cases m [] (λ passed s out, dropped_spaces s out)).
  - done.
  - constructor.
  - intros. by constructor.
  - intros passed s n caps out E Hn IH. simpl.
    rewrite <- (take_drop n s) at 1.
    apply dropped_spaces_front; [|done]. by apply (Hm _ _ _ _ E).
  - intros passed s n caps E. by apply (Hm _ _ _ _ E).
Qed.

(** A pass that changes white space only. *)
Lemma replace_g_strip m template :
  (∀ passed s caps, m passed s ≠ Some (0%nat, caps)) →
  (∀ passed s n caps,
     m passed s = Some (n, caps) →
     (n ≤ length s)%nat ∧
     strip_spaces
       (GetSubstitution (take n s) (rev passed) (drop n s) caps template)
     = strip_spaces (take n s)) →
  ∀ s passed,
    strip_spaces (replace_g_from m template 0 passed s) = strip_spaces s.
Proof.
  intros Hz Hm.
  apply (replace_g_cases m template
           (λ passed s out, strip_spaces out = strip_spaces s)).
  - done.
  - done.
  - intros passed c s out _ IH. unfold strip_spaces in *. simpl.
    by rewrite IH.
  - intros passed s n caps out E Hn IH.
    destruct (Hm _ _ _ _ E) as [_ Hs].
    transitivity (strip_spaces (take n s ++ drop n s));
      [|by rewrite take_drop].
    unfold strip_spaces in *. by rewrite !List.filter_app, Hs, IH.
  - intros passed s n caps E. by apply (Hm _ _ _ _ E).
Qed.

Lemma strip_spaces_all w :
  Forall (λ c, is_space c = true) w → strip_spaces w = [].
Proof.
  unfold strip_spaces. induction 1 as [|c w Hc Hw IH]; simpl; [done|].
  by rewrite Hc.
Qed.

(** *** The matchers of the passes *)

Lemma m_spaces_run least passed s n caps :
  m_spaces least passed s = Some (n, caps) →
  (n ≤ length s)%nat ∧ Forall (λ c, is_space c = true) (take n s).
Proof.
  intros H. split; [by eapply m_spaces_length|].
  apply m_spaces_Some in H as (-> & _ & _).
  rewrite span_take. apply span_run.
Qed.

Lemma spaces_to_line_end_run s k :
  spaces_to_line_end s = Some k →
  (0 < k ≤ length s)%nat ∧ Forall (λ c, is_space c = true) (take k s).
Proof.
  revert k. induction s as [|c s IH]; intros k; simpl; [done|].
  destruct (is_space c) eqn:Ec; [|done].
  destruct (spaces_to_line_end s) as [k'|].
  - intros [= <-]. destruct (IH k' eq_refl) as [? ?].
    split; [lia|]. simpl. by constructor.
  - destruct (at_line_end s); [|done]. intros [= <-].
    split; [lia|]. simpl. rewrite take_0. by repeat constructor.
Qed.

Lemma m_line_edges_run passed s n caps :
  m_line_edges passed s = Some (n, caps) →
  (0 < n ≤ length s)%nat ∧ Forall (λ c, is_space c = true) (take n s).
Proof.
  unfold m_line_edges.
  destruct (at_line_start passed && _) eqn:E.
  - intros [= <- <-]. apply andb_true_iff in E as [_ E].
    apply Nat.leb_le in E. split; [|rewrite span_take; apply span_run].
    split; [lia|apply span_length_le].
  - destruct (spaces_to_line_end s) as [k|] eqn:Ek; [|done].
    intros [= <- <-]. by apply spaces_to_line_end_run.
Qed.

Lemma m_newlines_run passed s n caps :
  m_newlines passed s = Some (n, caps) →
  (0 < n ≤ length s)%nat ∧ Forall (λ c, is_space c = true) (take n s).
Proof.
  unfold m_newlines. destruct (_ <=? _)%nat eqn:E; [|done].
  intros [= <- <-]. apply Nat.leb_le in E.
  split; [split; [lia|apply span_length_le]|].
  rewrite span_take. eapply Forall_impl; [apply span_run|].
  by intros c ->%N.eqb_eq.
Qed.

Lemma m_between_tags_Some passed s n caps :
  m_between_tags passed s = Some (n, caps) →
  ∃ w r, s = cGT :: w ++ cLT :: r ∧ n = (1 + length w + 1)%nat ∧
         Forall (λ c, is_space c = true) w ∧ caps = [].
Proof.
  unfold m_between_tags. destruct s as [|c s]; [done|].
  destruct (c =? cGT) eqn:Ec; [|done]. apply N.eqb_eq in Ec as ->.
  pose proof (span_eq is_space s) as Es.
  pose proof (span_run is_space s) as Hr.
  destruct (span is_space s) as [w r']. simpl in *.
  destruct w as [|x w]; [done|]. destruct r' as [|c' r]; [done|].
  destruct (c' =? cLT) eqn:Ec'; [|done]. apply N.eqb_eq in Ec' as ->.
  intros [= <- <-]. exists (x :: w), r. by rewrite Es.
Qed.

(** *** Runs of white space collapsed *)

Lemma runs_no_space_run s passed :
  no_space_run (replace_g_from (m_spaces 2) (lit " ") 0 passed s) = true ∧
  match s with
  | [] => replace_g_from (m_spaces 2) (lit " ") 0 passed s = []
  | d :: _ =>
    is_space d = false →
    head (replace_g_from (m_spaces 2) (lit " ") 0 passed s) = Some d
  end.
Proof.
  revert s passed.
  apply (replace_g_cases (m_spaces 2) (lit " ")
           (λ passed s out,
              no_space_run out = true ∧
              match s with
              | [] => out = []
              | d :: _ => is_space d = false → head out = Some d
              end)).
  - intros passed s caps. apply m_spaces_pos. lia.
  - done.
  - intros passed c s out Hm [Hout Hhead]. split; [|done].
    apply chain_cons. split; [|done].
    destruct out as [|e out]; [done|]. unfold apart.
    destruct (is_space c) eqn:Ec; [|done].
    (* a single white-space character stays; what follows is none *)
    destruct s as [|d s]; [done|].
    unfold m_spaces in Hm.
    destruct (is_space d) eqn:Ed.
    { rewrite !span_yes in Hm by done. simpl in Hm. done. }
    specialize (Hhead eq_refl). injection Hhead as ->. by rewrite Ed.
  - intros passed s n caps out Hm Hn [Hout Hhead].
    apply m_spaces_Some in Hm as (-> & Hle & ->).
    rewrite GetSubstitution_plain by done. rewrite span_drop in Hhead.
    pose proof (span_stop is_space s) as Hstop. split.
    + change (lit " " ++ out) with (cSP :: out). apply chain_cons.
      split; [|done].
      destruct ((span is_space s).2) as [|d r]; [by subst out|].
      specialize (Hhead Hstop). destruct out as [|e out]; [done|].
      simpl in Hhead. injection Hhead as ->. unfold apart.
      by rewrite Hstop, andb_false_r.
    + destruct s as [|d s]; [simpl in Hn; lia|]. intros Hd.
      rewrite span_no in Hle by done. simpl in Hle. lia.
  - intros passed s n caps. apply m_spaces_length.
Qed.

(** *** Comments *)

Lemma finds_delimited (o cl : str) s :
  o ≠ [] →
  ∀ passed,
    finds_from (m_delimited o cl) passed s = true ↔
    ∃ a b r, s = a ++ o ++ b ++ cl ++ r.
Proof.
  intros Ho. induction s as [|x s IH]; intros passed.
  - split; [done|]. intros (a & b & r & E).
    destruct a; [by destruct o|done].
  - cbn [finds_from]. unfold m_delimited at 1.
    destruct (startsWith o (x :: s)) eqn:Eo.
    + apply startsWith_inv in Eo as [r' Eo]. rewrite Eo.
      rewrite drop_app_length.
      destruct (indexOf cl r') as [j|] eqn:Ej.
      * split; [|done]. intros _.
        apply indexOf_Some in Ej as (b & r & -> & _). by exists [], b, r.
      * rewrite <- Eo. rewrite IH. apply indexOf_None in Ej.
        split.
        -- intros (a & b & r & ->). by exists (x :: a), b, r.
        -- intros (a & b & r & E). destruct a as [|y a].
           ++ exfalso. apply Ej. rewrite Eo in E. simpl in E.
              apply app_inv_head in E. rewrite E. by exists b, r.
           ++ injection E as -> ->. by exists a, b, r.
    + rewrite IH. split.
      * intros (a & b & r & ->). by exists (x :: a), b, r.
      * intros (a & b & r & E). destruct a as [|y a].
        -- simpl in E. rewrite E, startsWith_app in Eo. done.
        -- injection E as -> ->. by exists a, b, r.
Qed.

Lemma strip_spaces_app a b :
  strip_spaces (a ++ b) = strip_spaces a ++ strip_spaces b.
Proof. apply List.filter_app. Qed.

Lemma comment_survives_strip s :
  finds html_comment s = true → finds html_comment (strip_spaces s) = true.
Proof.
  unfold finds, html_comment. rewrite !finds_delimited by done.
  intros (a & b & r & ->).
  exists (strip_spaces a), (strip_spaces b), (strip_spaces r).
  by rewrite !strip_spaces_app.
Qed.

End MinifyHTML.

(** C7, as the code has it.  The minified page has no two white-space
    characters side by side.  The pass that removes comments goes over
    the page once and the later passes change white space only: when the
    text that the comment pass leaves holds no comment, white space
    disregarded, the minified page holds no comment. *)
Theorem minifyHTML_spaces_and_comments (html : str) :
  no_space_run (minifyHTML html) = true ∧
  (finds html_comment (strip_spaces (replace_g html_comment [] html)) = false →
   finds html_comment (minifyHTML html) = false).
Proof.
  unfold minifyHTML, replace_g. fold html_comment.
  set (s1 := replace_g_from html_comment [] 0 [] html).
  set (s2 := replace_g_from m_between_tags (lit "><") 0 [] s1).
  set (s3 := replace_g_from (m_spaces 2) (lit " ") 0 [] s2).
  set (s4 := replace_g_from m_line_edges [] 0 [] s3).
  set (s5 := replace_g_from m_newlines [] 0 [] s4).
  assert (D4 : dropped_spaces s3 s4).
  { apply replace_g_dropped.
    - intros passed s caps [? _]%m_line_edges_run. lia.
    - intros passed s n caps [[_ ?] ?]%m_line_edges_run. done. }
  assert (D5 : dropped_spaces s4 s5).
  { apply replace_g_dropped.
    - intros passed s caps [? _]%m_newlines_run. lia.
    - intros passed s n caps [[_ ?] ?]%m_newlines_run. done. }
  split.
  - eapply dropped_spaces_no_run; [apply trim_dropped|].
    eapply dropped_spaces_no_run; [exact D5|].
    eapply dropped_spaces_no_run; [exact D4|].
    apply runs_no_space_run.
  - intros H. destruct (finds html_comment (trim s5)) eqn:E; [|done].
    apply comment_survives_strip in E.
    rewrite (dropped_spaces_strip _ _ (trim_dropped s5)) in E.
    rewrite (dropped_spaces_strip _ _ D5) in E.
    rewrite (dropped_spaces_strip _ _ D4) in E.
    unfold s3 in E. rewrite replace_g_strip in E.
    + unfold s2 in E. rewrite replace_g_strip in E; [congruence| |].
      * intros passed s caps (? & ? & _ & ? & _)%m_between_tags_Some. lia.
      * intros passed s n caps (w & r & -> & -> & Hw & ->)%m_between_tags_Some.
        split; [rewrite !length_cons, length_app; simpl; lia|].
        rewrite GetSubstitution_plain by done.
        replace (take (1 + length w + 1) (cGT :: w ++ cLT :: r))
          with ([cGT] ++ w ++ [cLT]).
        -- rewrite !strip_spaces_app, (strip_spaces_all w) by done. done.
        -- simpl. f_equal.
           rewrite take_app_ge by lia.
           by replace (length w + 1 - length w)%nat with 1%nat by lia.
    + intros passed s caps. apply m_spaces_pos. lia.
    + intros passed s n caps Hm. pose proof Hm as [? ?]%m_spaces_run.
      split; [done|]. apply m_spaces_Some in Hm as (_ & _ & ->).
      rewrite GetSubstitution_plain by done.
      by rewrite (strip_spaces_all (take n s)).
Qed.

Lemma minifyHTML_spaces_and_comments_witness :
  no_space_run
    (minifyHTML (lit "<p>  a   b </p> <!-- note -->  <p> c </p>")) = true ∧
  finds html_comment
    (minifyHTML (lit "<p>  a   b </p> <!-- note -->  <p> c </p>")) = false.
Proof.
  destruct (minifyHTML_spaces_and_comments
              (lit "<p>  a   b </p> <!-- note -->  <p> c </p>")) as [H1 H2].
  split; [exact H1|]. apply H2. vm_compute. reflexivity.
Defined.

(** C7 fails as it is stated: the two sides of a removed comment make a
    comment, and it is in the minified page. *)
Lemma comment_left_in_minified_page :
  minifyHTML (lit "<!<!---->-- x -->") = lit "<!-- x -->" ∧
  finds html_comment (minifyHTML (lit "<!<!---->-- x -->")) = true.
Proof. split; vm_compute; reflexivity. Qed.

(* ================================================================== *)
(** ** Page assembly: taking [/public/] out *)

Section StripPublic.

Let PUB : str := lit "/public/".
Let strip_from (passed s : str) : str :=
  replace_g_from (m_literal PUB) (lit "/") 0 passed s.

Lemma strip_hit passed r :
  strip_from passed (PUB ++ r)
  = cSLASH :: strip_from (rev PUB ++ passed) r.
Proof.
  unfold strip_from. change (PUB ++ r) with (cSLASH :: lit "public/" ++ r).
  erewrite (replace_g_hit _ _ _ _ _ 7 []).
  - done.
  - unfold m_literal.
    change (cSLASH :: lit "public/" ++ r) with (PUB ++ r).
    by rewrite startsWith_app.
Qed.

Lemma strip_miss passed c s :
  startsWith PUB (c :: s) = false →
  strip_from passed (c :: s) = c :: strip_from (c :: passed) s.
Proof.
  intros H. unfold strip_from. apply replace_g_miss.
  unfold m_literal. by rewrite H.
Qed.

Lemma strip_other passed c s :
  c ≠ cSLASH → strip_from passed (c :: s) = c :: strip_from (c :: passed) s.
Proof.
  intros H. apply strip_miss. by apply startsWith_false_head.
Qed.

(** The pass keeps the first character of a text. *)
Lemma strip_head passed s : head (strip_from passed s) = head s.
Proof.
  destruct s as [|c s]; [done|].
  destruct (startsWith PUB (c :: s)) eqn:E.
  - apply startsWith_inv in E as [r E]. rewrite E, strip_hit.
    by destruct r.
  - by rewrite strip_miss.
Qed.

(** A word without slashes and the slash behind it come out of the pass
    only where they went in. *)
Lemma strip_word w passed r :
  Forall (λ c, c ≠ cSLASH) w →
  startsWith (w ++ [cSLASH]) (strip_from passed r) = true →
  startsWith (w ++ [cSLASH]) r = true.
Proof.
  intros Hw. revert passed r.
  induction Hw as [|x w Hx Hw IH]; intros passed r H.
  - pose proof (strip_head passed r) as Hh.
    destruct (strip_from passed r) as [|y o]; [done|].
    apply startsWith_cons in H as [<- _].
    destruct r as [|c r]; [done|]. simpl in Hh. injection Hh as <-.
    by apply startsWith_cons.
  - pose proof (strip_head passed r) as Hh.
    destruct r as [|c r].
    { by rewrite (replace_g_nil _ _ passed : strip_from passed [] = []) in H. }
    destruct (strip_from passed (c :: r)) as [|y o] eqn:Eo; [done|].
    simpl in Hh. injection Hh as ->.
    apply startsWith_cons in H as [-> H].
    rewrite strip_other in Eo by done. injection Eo as <-.
    apply startsWith_cons. split; [done|]. by eapply IH.
Qed.

Lemma strip_public_word passed r :
  startsWith (lit "public/") (strip_from passed r) = true →
  startsWith (lit "public/") r = true.
Proof.
  apply (strip_word (lit "public")).
  repeat constructor; done.
Qed.

(** An occurrence of [/public/] behind the pass comes from two
    occurrences that share a slash. *)
Lemma strip_leaves s :
  ∀ passed, occurs PUB (strip_from passed s) →
            occurs (lit "/public/public/") s.
Proof.
  remember (length s) as n eqn:Hn. revert s Hn.
  induction (lt_wf n) as [n _ IH]. intros s -> passed H.
  destruct s as [|c s].
  { destruct H as (a & b & H). by destruct a. }
  destruct (startsWith PUB (c :: s)) eqn:E.
  - apply startsWith_inv in E as [r E]. rewrite E in *.
    rewrite strip_hit in H. apply occurs_cons_inv in H as [H|H].
    + change PUB with (cSLASH :: lit "public/") in H at 1.
      apply startsWith_cons in H as [_ H]. apply strip_public_word in H.
      apply startsWith_inv in H as [r' ->].
      by exists [], r'.
    + apply occurs_app_r. eapply (IH (length r)); [|done|exact H].
      rewrite length_app. simpl. lia.
  - rewrite strip_miss in H by done.
    apply occurs_cons_inv in H as [H|H].
    + change PUB with (cSLASH :: lit "public/") in H at 1.
      apply startsWith_cons in H as [<- H]. apply strip_public_word in H.
      change PUB with (cSLASH :: lit "public/") in E.
      assert (E' : startsWith (cSLASH :: lit "public/") (cSLASH :: s) = true)
        by (by apply startsWith_cons).
      congruence.
    + apply occurs_cons. eapply (IH (length s)); [simpl; lia|done|exact H].
Qed.

(** Text in front of an occurrence that no earlier occurrence reaches
    into is passed on as it is, and the occurrence becomes a slash. *)
Lemma strip_first a :
  ∀ passed b, ¬ occurs PUB (a ++ lit "/public") →
    strip_from passed (a ++ PUB ++ b)
    = a ++ cSLASH :: strip_from (rev PUB ++ rev a ++ passed) b.
Proof.
  induction a as [|c a IH]; intros passed b H.
  - apply strip_hit.
  - change ((c :: a) ++ PUB ++ b) with (c :: a ++ PUB ++ b).
    rewrite strip_miss.
    + rewrite IH.
      * simpl. by rewrite <- !app_assoc.
      * intros Ho. apply H. by apply occurs_cons.
    + destruct (startsWith PUB _) eqn:E; [|done]. exfalso. apply H.
      apply startsWith_inv in E as [r E].
      (* the occurrence at the front ends before the last slash *)
      assert (Hl : length (PUB ++ r) = S (length (a ++ PUB ++ b)))
        by (by rewrite <- E).
      rewrite !length_app in Hl.
      change (length PUB) with 8%nat in Hl.
      assert (P1 : take 8 (c :: a ++ PUB ++ b) = PUB)
        by (rewrite E; apply (take_app_length PUB r)).
      assert (P2 : take 8 (c :: a ++ PUB ++ b)
                   = take 8 ((c :: a) ++ lit "/public")).
      { assert (Hs : c :: a ++ PUB ++ b
                     = ((c :: a) ++ lit "/public") ++ cSLASH :: b)
          by (by rewrite <- app_assoc).
        rewrite Hs. rewrite take_app_le; [done|].
        rewrite length_app. simpl. lia. }
      rewrite P2 in P1.
      exists [], (drop 8 ((c :: a) ++ lit "/public")).
      rewrite app_nil_l, <- P1. by rewrite take_drop.
Qed.

Lemma strip_passed s : ∀ q1 q2, strip_from q1 s = strip_from q2 s.
Proof.
  remember (length s) as n eqn:Hn. revert s Hn.
  induction (lt_wf n) as [n _ IH]. intros s -> q1 q2.
  destruct s as [|c s]; [done|].
  destruct (startsWith PUB (c :: s)) eqn:E.
  - apply startsWith_inv in E as [r E]. rewrite E, !strip_hit. f_equal.
    eapply (IH (length r)); [|done].
    rewrite E, length_app. simpl. lia.
  - rewrite !strip_miss by done. f_equal.
    eapply (IH (length s)); [simpl; lia|done].
Qed.

End StripPublic.

(** C10, as the code has it.  The pass over the composed page replaces the
    occurrences of [/public/] it meets from left to right, wherever they
    stand in the text: the text in front of an occurrence is passed on
    and the occurrence becomes a slash (first part).  When no two
    occurrences share a slash in the composed page, that is, it holds no
    [/public/public/], the text handed to the minifier holds no
    [/public/] (second part). *)
Theorem stripPublic_composed_page (shell : str) (p : P.partials)
    (hashedCssFile : str) :
  (∀ a b : str,
     includes (lit "/public/") (a ++ lit "/public") = false →
     stripPublic (a ++ lit "/public/" ++ b) = a ++ lit "/" ++ stripPublic b) ∧
  (includes (lit "/public/public/") (composePage shell p hashedCssFile)
     = false →
   includes (lit "/public/")
     (stripPublic (composePage shell p hashedCssFile)) = false).
Proof.
  split.
  - intros a b H. apply includes_false in H. unfold stripPublic, replace_g.
    rewrite strip_first by done. f_equal.
    change (lit "/" ++ ?x) with (cSLASH :: x). f_equal. apply strip_passed.
  - intros H. apply includes_false. apply includes_false in H.
    intros Ho. apply H. by eapply strip_leaves.
Qed.

Lemma stripPublic_composed_page_witness :
  stripPublic (lit "<img src='" ++ lit "/public/" ++ lit "img/a.png'>")
  = lit "<img src='" ++ lit "/" ++ stripPublic (lit "img/a.png'>")
  ∧
  includes (lit "/public/")
    (stripPublic
       (composePage (lit "<!-- HEAD --><img src='/public/img/a.png'>")
          no_partials (lit "bundle.c1f7557b.css"))) = false.
Proof.
  destruct (stripPublic_composed_page
              (lit "<!-- HEAD --><img src='/public/img/a.png'>")
              no_partials (lit "bundle.c1f7557b.css")) as [H1 H2].
  split.
  - apply (H1 (lit "<img src='") (lit "img/a.png'>")).
    vm_compute. reflexivity.
  - apply H2. vm_compute. reflexivity.
Defined.

(** C10 fails as it is stated: of two occurrences that share a slash the
    second one stays, and it is in the page that is written. *)
Lemma public_survives_in_written_page :
  buildPage (lit "<img src='/public/public/a.png'>") no_partials
    (lit "bundle.c1f7557b.css")
  = lit "<img src='/public/a.png'>"
  ∧
  includes (lit "/public/")
    (buildPage (lit "<img src='/public/public/a.png'>") no_partials
       (lit "bundle.c1f7557b.css")) = true.
Proof. split; vm_compute; reflexivity. Qed.

(* ================================================================== *)
(** ** The content hash and the name of the bundle *)

Lemma compileCSSBundleWithHash_done root d f n d' co :
  compileCSSBundleWithHash root d f = Done (n, d', co) →
  ∃ bundledCss σ,
    inlineCSS (inline_fuel d) d
      (Path.join (Path.join (ASSETS_DIR root) (lit "css")) f) new_bundler
      = Done (bundledCss, σ) ∧
    n = bundle_name (getContentHash (minifyCSS bundledCss)) ∧
    written_bundle root d' n = Some (Fs.File (minifyCSS bundledCss)) ∧
    co = console σ ++ [LogCssBundled n].
Proof.
  unfold compileCSSBundleWithHash, written_bundle.
  destruct (inlineCSS _ _ _ _) as [[b σ]| |]; [|done..].
  unfold writeFileSync.
  set (out := Path.join _ (bundle_name _)).
  set (d1 := mkdirSync _ _).
  destruct (d1 !! out) as [[]|] eqn:E; [|done|];
    intros [= <- <- <-]; exists b, σ; by rewrite lookup_insert_eq.
Qed.

(** C8, as the code has it.  The name of the bundle is [bundle.], the
    first eight hexadecimal digits of the MD5 digest of the minified CSS
    that is written, and [.css]; two runs that write the same minified
    CSS give the bundle the same name.  (The hash is taken after
    minification: a change of the input that minification undoes leaves
    the name as it was.) *)
Theorem bundle_name_from_minified_css (root : str) (d1 d2 : Fs.disk)
    (f n1 n2 : str) (o1 o2 : Fs.disk) (c1 c2 : list event) :
  compileCSSBundleWithHash root d1 f = Done (n1, o1, c1) →
  compileCSSBundleWithHash root d2 f = Done (n2, o2, c2) →
  (∃ minifiedCss,
     written_bundle root o1 n1 = Some (Fs.File minifiedCss) ∧
     n1 = bundle_name (take 8 (Md5.md5_hex minifiedCss)) ∧
     (length n1 ≤ 19)%nat) ∧
  (written_bundle root o1 n1 = written_bundle root o2 n2 → n1 = n2).
Proof.
  intros H1 H2.
  apply compileCSSBundleWithHash_done in H1 as (b1 & σ1 & _ & -> & W1 & _).
  apply compileCSSBundleWithHash_done in H2 as (b2 & σ2 & _ & -> & W2 & _).
  split.
  - exists (minifyCSS b1). split; [done|]. split; [done|].
    unfold bundle_name, getContentHash. rewrite !length_app, length_take.
    change (length (lit "bundle.")) with 7%nat.
    change (length (lit ".css")) with 4%nat. lia.
  - rewrite W1, W2. by intros [= ->].
Qed.

Lemma bundle_name_from_minified_css_witness :
  ∃ n, bundle_of (compileCSSBundleWithHash (lit "/site")
                    (site_with_css (lit "/*a*/b{}")) (lit "main.css"))
       = Some n ∧
       bundle_of (compileCSSBundleWithHash (lit "/site")
                    (site_with_css (lit "b { }")) (lit "main.css"))
       = Some n.
Proof.
  set (d1 := site_with_css (lit "/*a*/b{}")).
  set (d2 := site_with_css (lit "b { }")).
  set (main := lit "/site/src/assets/css/main.css").
  assert (B1 : bundle_of (compileCSSBundleWithHash (lit "/site") d1
                            (lit "main.css")) ≠ None)
    by (vm_compute; discriminate).
  assert (B2 : bundle_of (compileCSSBundleWithHash (lit "/site") d2
                            (lit "main.css")) ≠ None)
    by (vm_compute; discriminate).
  assert (I1 : inlineCSS (inline_fuel d1) d1 main new_bundler
               = Done (lit "/*a*/b{}", {| seen := [main]; console := [] |}))
    by (vm_compute; reflexivity).
  assert (I2 : inlineCSS (inline_fuel d2) d2 main new_bundler
               = Done (lit "b { }", {| seen := [main]; console := [] |}))
    by (vm_compute; reflexivity).
  revert B1 B2.
  destruct (compileCSSBundleWithHash (lit "/site") d1 (lit "main.css"))
    as [[[n1 o1] c1]| |] eqn:E1;
    [|intros B _; exfalso; apply B; reflexivity..].
  destruct (compileCSSBundleWithHash (lit "/site") d2 (lit "main.css"))
    as [[[n2 o2] c2]| |] eqn:E2;
    [|intros _ B; exfalso; apply B; reflexivity..].
  intros _ _. exists n1. split; [reflexivity|]. simpl. f_equal. symmetry.
  apply (bundle_name_from_minified_css _ _ _ _ _ _ _ _ _ _ E1 E2).
  apply compileCSSBundleWithHash_done in E1 as (b1 & σ1 & J1 & _ & -> & _).
  apply compileCSSBundleWithHash_done in E2 as (b2 & σ2 & J2 & _ & -> & _).
  assert (P : Path.join (Path.join (ASSETS_DIR (lit "/site")) (lit "css"))
                (lit "main.css") = main) by (vm_compute; reflexivity).
  rewrite P, I1 in J1. rewrite P, I2 in J2.
  injection J1 as <- _. injection J2 as <- _.
  vm_compute. reflexivity.
Defined.

(** C8 fails as it is stated: two style sheets one character apart (the
    character stands in a comment) get the same bundle name. *)
Lemma bundle_name_same_after_one_byte_change :
  one_byte_apart (lit "/*a*/b{}") (lit "/*c*/b{}") ∧
  bundle_of (compileCSSBundleWithHash (lit "/site")
               (site_with_css (lit "/*a*/b{}")) (lit "main.css"))
  = Some (lit "bundle.c1f7557b.css") ∧
  bundle_of (compileCSSBundleWithHash (lit "/site")
               (site_with_css (lit "/*c*/b{}")) (lit "main.css"))
  = Some (lit "bundle.c1f7557b.css").
Proof.
  split; [|split; vm_compute; reflexivity].
  exists (lit "/*"), 97, 99, (lit "*/b{}"). by split.
Qed.

(* ================================================================== *)
(** ** Content injection: when a value is inserted as it is *)

Lemma replace_plain pattern value s :
  plain value = true → replace pattern value s = replace_verbatim pattern value s.
Proof.
  intros H. unfold replace, replace_verbatim.
  destruct (indexOf pattern s); [|done]. by rewrite GetSubstitution_plain.
Qed.

Lemma replace_g_literal_plain p value s :
  plain value = true →
  ∀ skip passed,
    replace_g_from (m_literal p) value skip passed s
    = replace_g_verbatim_from (m_literal p) value skip passed s.
Proof.
  intros H. induction s as [|c s IH]; intros skip passed; [done|].
  cbn [replace_g_from replace_g_verbatim_from].
  destruct skip as [|k]; [|apply IH].
  destruct (m_literal p passed (c :: s)) as [[n caps]|] eqn:E.
  - unfold m_literal in E. destruct (startsWith p (c :: s)); [|done].
    injection E as <- <-. by rewrite GetSubstitution_plain, IH.
  - by rewrite IH.
Qed.

Lemma fold_left_ext_Forall {A B} (f g : A → B → A) (P : B → Prop) l :
  (∀ a b, P b → f a b = g a b) → Forall P l →
  ∀ a, fold_left f l a = fold_left g l a.
Proof.
  intros Hfg Hl. induction Hl as [|b l Hb Hl IH]; intros a; simpl; [done|].
  by rewrite Hfg, IH.
Qed.

Lemma forallb_Forall {A} (f : A → bool) l :
  forallb f l = true → Forall (λ x, f x = true) l.
Proof.
  induction l as [|x l IH]; simpl; [constructor|].
  intros [? ?]%andb_true_iff. constructor; auto.
Qed.

(** C6, as the code has it.  [String.prototype.replace] reads its second
    argument as a replacement template.  When every value of the site
    copy and every child fragment at the moment it is embedded (the
    invoices, steps and services fragments after their own passes, the
    contact form) is a plain template, one without [$$], [$&], [$`] and
    [$'], injection is substitution of each value character for
    character. *)
Theorem injectDynamicContent_verbatim (c : copyJSON) (p : P.partials) :
  plain_copy c = true →
  plain (P.invoices (injectDynamicContent c p)) = true →
  plain (P.steps (injectDynamicContent c p)) = true →
  plain (P.services (injectDynamicContent c p)) = true →
  plain (P.contactForm p) = true →
  injectDynamicContent c p = injectVerbatim c p.
Proof.
  unfold plain_copy. rewrite !andb_true_iff.
  intros [[[[[[[[[[[[[Hnav Hht] Hhd] Hhc] Hil] Hia] Hat] Had] Has] Hst] Hsd]
            Hsl] Hct] Hcd] Hinv Hsteps Hserv Hform.
  apply forallb_Forall in Hnav, Hia, Has, Hsl.
  assert (Enav : ∀ s, inject_nav (header_nav c) s
    = fold_left (λ acc item, replace_verbatim mDESTINATION (link item)
                   (replace_verbatim mLABEL (label item) acc))
                (header_nav c) s).
  { apply fold_left_ext_Forall with (P := λ i, plain (label i) && plain (link i) = true);
      [|done].
    intros a b [? ?]%andb_true_iff. by rewrite !replace_plain. }
  assert (Eam : ∀ s, inject_amounts (invoices_amounts c) s
    = fold_left (λ acc amount, replace_verbatim mAMOUNT amount acc)
                (invoices_amounts c) s).
  { apply fold_left_ext_Forall with (P := λ v, plain v = true); [|done].
    intros a b ?. by rewrite replace_plain. }
  assert (Etitled : ∀ items s, Forall (λ i, plain_titled i = true) items →
    inject_titled items s
    = fold_left (λ acc item, replace_verbatim mDESCRIPTION (description item)
                   (replace_verbatim mTITLE (title item) acc)) items s).
  { intros items s Hi. revert s.
    apply fold_left_ext_Forall with (P := λ i, plain_titled i = true); [|done].
    intros a b [? ?]%andb_true_iff. by rewrite !replace_plain. }
  assert (Einv : P.invoices (injectDynamicContent c p)
                 = P.invoices (injectVerbatim c p)).
  { cbn [injectDynamicContent injectVerbatim P.invoices].
    unfold replace_g. by rewrite replace_g_literal_plain, Eam. }
  assert (Esteps : P.steps (injectDynamicContent c p)
                   = P.steps (injectVerbatim c p)).
  { cbn [injectDynamicContent injectVerbatim P.steps]. by apply Etitled. }
  assert (Eserv : P.services (injectDynamicContent c p)
                  = P.services (injectVerbatim c p)).
  { cbn [injectDynamicContent injectVerbatim P.services]. by apply Etitled. }
  cbn [injectDynamicContent injectVerbatim P.invoices P.steps P.services]
    in Hinv, Hsteps, Hserv, Einv, Esteps, Eserv.
  unfold injectDynamicContent, injectVerbatim. cbv zeta.
  rewrite (replace_plain (lit "<!-- INVOICES -->")) by done.
  rewrite (replace_plain (lit "<!-- STEPS -->")) by done.
  rewrite (replace_plain (lit "<!-- SERVICES -->")) by done.
  rewrite (replace_plain (lit "<!-- CONTACT FORM -->")) by done.
  rewrite Einv, Esteps, Eserv, Enav.
  by rewrite !replace_plain by done.
Qed.

Lemma injectDynamicContent_verbatim_witness :
  plain_copy sample_copy = true ∧
  injectDynamicContent sample_copy sample_partials
  = injectVerbatim sample_copy sample_partials.
Proof.
  split; [reflexivity|].
  apply injectDynamicContent_verbatim; vm_compute; reflexivity.
Defined.

(** C6 fails as it is stated: of the two dollar signs of an amount one
    reaches the page, and [$'] brings in the text behind the marker. *)
Lemma amount_not_inserted_verbatim :
  P.invoices (injectDynamicContent
                (copy_with_amounts [lit "$$5"; lit "$'000"]) sample_partials)
  = lit "<li>Invoice $5</li><li>Invoice </li>000</li>"
  ∧
  P.invoices (injectVerbatim
                (copy_with_amounts [lit "$$5"; lit "$'000"]) sample_partials)
  = lit "<li>Invoice $$5</li><li>Invoice $'000</li>".
Proof. split; vm_compute; reflexivity. Qed.
